(** * powkit/util.go: seed chain, FNV mixer, integer operators, KawPow operators

    A shallow embedding of [util.go] (package [pow]).

    - [uint32] and [uint64] values are integers of [Z] in [0, 2^32) and
      [0, 2^64); every arithmetic operation of the source writes out its
      wrap-around.
    - Slices are views [(off, len, cap)] into a store of cells, so that two
      slices may share cells as they may in Go.
    - A run-time panic is the [Panic] result of the [outcome] type.
    - Go's standard library ([math/bits], [encoding/binary]) and the
      [sha3] package are not part of the source.  The first two are
      defined from their documentation.  The seed chain is proved for any
      hash object with the properties it relies on, and run on the legacy
      Keccak-256 sponge written out below. *)

From Stdlib Require Import ZArith Lia Bool Ascii.
From stdpp Require Import base list strings.

Local Open Scope Z_scope.

(** ** Results of code that may panic *)

Inductive outcome (A : Type) : Type :=
| Ok (a : A)
| Panic (msg : string).
Arguments Ok {A} a.
Arguments Panic {A} msg.

#[global] Instance outcome_ret : MRet outcome := fun A a => Ok a.

#[global] Instance outcome_bind : MBind outcome := fun A B k m =>
  match m with
  | Ok a => k a
  | Panic msg => Panic msg
  end.

(** ** Fixed-width unsigned integers *)

Module U32.

Definition modulus : Z := 2 ^ 32.

Definition wrap (x : Z) : Z := x mod modulus.

Definition add (a b : Z) : Z := wrap (a + b).
Definition sub (a b : Z) : Z := wrap (a - b).
Definition mul (a b : Z) : Z := wrap (a * b).
Definition rem (a b : Z) : Z := a mod b.

(** [a << s] and [a >> s] on [uint32]; a count of 32 or more gives 0. *)
Definition shl (a s : Z) : Z := wrap (Z.shiftl a s).
Definition shr (a s : Z) : Z := Z.shiftr a s.

End U32.

Module U64.

Definition modulus : Z := 2 ^ 64.
Definition wrap (x : Z) : Z := x mod modulus.
Definition mul (a b : Z) : Z := wrap (a * b).
Definition shr (a s : Z) : Z := Z.shiftr a s.

End U64.

Definition FNV_PRIME : Z := 0x01000193.
Definition FNV_OFFSET_BASIS : Z := 0x811c9dc5.

(** ** Go's [math/bits], from its documentation *)

Module bits.

(** [Len32 x]: the minimum number of bits required to represent [x];
    the result is 0 for [x = 0]. *)
Definition Len32 (x : Z) : Z :=
  if x =? 0 then 0 else Z.log2 x + 1.

(** [LeadingZeros32 x]: the number of leading zero bits in [x]; the
    result is 32 for [x = 0]. *)
Definition LeadingZeros32 (x : Z) : Z := 32 - Len32 x.

Fixpoint ones (n : nat) (x : Z) : Z :=
  match n with
  | O => 0
  | S n' => Z.b2z (Z.odd x) + ones n' (Z.div2 x)
  end.

(** [OnesCount32 x]: the number of one bits in [x]. *)
Definition OnesCount32 (x : Z) : Z := ones 32 x.

End bits.

(** ** Math utils *)

Definition minUint32 (a b : Z) : Z :=
  if a >? b then b else a.

Definition fnv1 (u v : Z) : Z :=
  Z.lxor (U32.mul u FNV_PRIME) v.

Definition fnv1a (u v : Z) : Z :=
  U32.mul (Z.lxor u v) FNV_PRIME.

Definition rotl32 (a b : Z) : Z :=
  Z.lor (U32.shl a (Z.land b 31)) (U32.shr a (Z.land (U32.sub 32 b) 31)).

Definition rotr32 (a b : Z) : Z :=
  Z.lor (U32.shl a (Z.land (U32.sub 32 b) 31)) (U32.shr a (Z.land b 31)).

Definition clz32 (a : Z) : Z := U32.wrap (bits.LeadingZeros32 a).

Definition popcount32 (a : Z) : Z := U32.wrap (bits.OnesCount32 a).

Definition mul_hi32 (a b : Z) : Z :=
  U32.wrap (U64.shr (U64.mul (U64.wrap a) (U64.wrap b)) 32).

(** ** KawPow utils *)

(** How control leaves a function whose body is a [switch] of [return]s
    followed by a trailing [return]. *)
Inductive switch_exit : Type :=
| Returned (v : Z)
| FellThrough.

Definition randomMath_switch (a b selector : Z) : switch_exit :=
  match U32.rem selector 11 with
  | 0 => Returned (U32.add a b)
  | 1 => Returned (U32.mul a b)
  | 2 => Returned (mul_hi32 a b)
  | 3 => Returned (minUint32 a b)
  | 4 => Returned (rotl32 a b)
  | 5 => Returned (rotr32 a b)
  | 6 => Returned (Z.land a b)
  | 7 => Returned (Z.lor a b)
  | 8 => Returned (Z.lxor a b)
  | 9 => Returned (U32.add (clz32 a) (clz32 b))
  | 10 => Returned (U32.add (popcount32 a) (popcount32 b))
  | _ => FellThrough
  end.

Definition randomMath (a b selector : Z) : Z :=
  match randomMath_switch a b selector with
  | Returned v => v
  | FellThrough => 0
  end.

Definition randomMerge_x (selector : Z) : Z :=
  U32.add (U32.rem (U32.shr selector 16) 31) 1.

Definition randomMerge_switch (a b selector : Z) : switch_exit :=
  let x := randomMerge_x selector in
  match U32.rem selector 4 with
  | 0 => Returned (U32.add (U32.mul a 33) b)
  | 1 => Returned (U32.mul (Z.lxor a b) 33)
  | 2 => Returned (Z.lxor (rotl32 a x) b)
  | 3 => Returned (Z.lxor (rotr32 a x) b)
  | _ => FellThrough
  end.

Definition randomMerge (a b selector : Z) : Z :=
  match randomMerge_switch a b selector with
  | Returned v => v
  | FellThrough => 0
  end.

(** ** Slices over a store of cells

    A slice value is a window on a backing array: [off] is the position of
    its first element in the store, [len] its length and [cap] its capacity.
    Two slices with overlapping windows share cells. *)

Record slice : Type := Slice { off : nat; len : nat; cap : nat }.

Abbreviation store := (list Z).

Definition slice_wf (m : store) (s : slice) : Prop :=
  (len s <= cap s)%nat /\ (off s + cap s <= length m)%nat.

(** The elements [s[0], ..., s[len-1]] as the store has them. *)
Definition view (s : slice) (m : store) : list Z :=
  take (len s) (drop (off s) m).

(** The cells of [s] are the addresses [off s, ..., off s + len s - 1]. *)
Definition in_cells (s : slice) (addr : nat) : Prop :=
  (off s <= addr < off s + len s)%nat.

Definition disjoint_cells (s t : slice) : Prop :=
  forall addr, in_cells s addr -> ~ in_cells t addr.

(** [s[:k]]: panics unless [0 <= k <= cap s]. *)
Definition reslice_to (s : slice) (k : Z) : outcome slice :=
  if (0 <=? k) && (k <=? Z.of_nat (cap s))
  then Ok (Slice (off s) (Z.to_nat k) (cap s))
  else Panic "slice bounds out of range".

(** Writes [out] over the first cells of [s], as far as [s] reaches. *)
Definition blit (s : slice) (out : list Z) (m : store) : store :=
  take (off s) m ++ take (len s) out
    ++ drop (off s + length (take (len s) out)) m.

(** Accesses to single elements, recorded as the program makes them:
    through which slice and at which index. *)
Inductive access : Type :=
| Load (s : slice) (i : nat)
| Store (s : slice) (i : nat).

(** The cell an access touches. *)
Definition addr_of (a : access) : nat :=
  match a with
  | Load s i => (off s + i)%nat
  | Store s i => (off s + i)%nat
  end.

Record mem : Type := Mem { cells : store; log : list access }.

(** [s[i]] as an operand. *)
Definition load (s : slice) (i : nat) (m : mem) : outcome (Z * mem) :=
  if decide (i < len s)%nat then
    match cells m !! (off s + i)%nat with
    | Some v => Ok (v, Mem (cells m) (log m ++ [Load s i]))
    | None => Panic "invalid memory address"
    end
  else Panic "index out of range".

(** [s[i] = v]. *)
Definition assign (s : slice) (i : nat) (v : Z) (m : mem) : outcome mem :=
  if decide (i < len s)%nat then
    if decide (off s + i < length (cells m))%nat then
      Ok (Mem (<[(off s + i)%nat := v]> (cells m))
              (log m ++ [Store s i]))
    else Panic "invalid memory address"
  else Panic "index out of range".

(** ** The FNV mixer *)

(** The loop [for i := 0; i < len(mix); i++] with [n] iterations left. *)
Fixpoint fnvHash_loop (n i : nat) (mix data : slice) (m : mem) : outcome mem :=
  match n with
  | O => Ok m
  | S n' =>
      '(u, m1) ← load mix i m;
      '(v, m2) ← load data i m1;
      m3 ← assign mix i (fnv1 u v) m2;
      fnvHash_loop n' (S i) mix data m3
  end.

Definition fnvHash (mix data : slice) (m : mem) : outcome mem :=
  fnvHash_loop (len mix) 0 mix data m.

(** ** Hash utils *)

(** The method set of a value behind Go's [hash.Hash], over the type [St]
    of its internal state.  [Read] is there exactly when the dynamic type
    also has the method [Read([]byte) (int, error)]; given the length of
    the buffer it returns the bytes it puts at the buffer's start.  [Size]
    is the one method called while a hasher is made, and the call may
    panic, as on a nil pointer receiver; [Reset], [Write] and [Read] are
    methods that return. *)
Record HashMethods (St : Type) : Type := {
  Write : list Z -> St -> St;
  Sum : list Z -> St -> list Z;
  Reset : St -> St;
  Size : St -> outcome Z;
  BlockSize : St -> Z;
  Read : option (nat -> St -> list Z * St)
}.
Arguments Write {St}.
Arguments Sum {St}.
Arguments Reset {St}.
Arguments Size {St}.
Arguments BlockSize {St}.
Arguments Read {St}.

(** A non-nil interface value: the methods and the state they act on. *)
Record HashObj (St : Type) : Type := {
  methods : HashMethods St;
  state : St
}.
Arguments methods {St}.
Arguments state {St}.

(** [type hasher func(dest []byte, data []byte)], over the state of the
    hash it closes over and the store its slices live in. *)
Definition hasher (St : Type) : Type :=
  slice -> slice -> St * store -> outcome (St * store).

(** The closure [makeHasher] returns, over the variables it captures: the
    methods of [rh], among them [Read], and [outputLen].  The state of [rh]
    is the [St] it is run on. *)
Definition hasher_body {St} (rh : HashMethods St)
    (read : nat -> St -> list Z * St) (outputLen : Z) : hasher St :=
  fun dest data '(st, m) =>
    let st1 := Reset rh st in
    let st2 := Write rh (view data m) st1 in
    d ← reslice_to dest outputLen;
    let '(out, st3) := read (len d) st2 in
    Ok (st3, blit d out m).

(** [h] is [None] for the nil interface value. *)
Definition makeHasher {St} (h : option (HashObj St)) : outcome (hasher St) :=
  match h with
  | None => Panic "can't find Read method on hash"
  | Some rh =>
      match Read (methods rh) with
      | None => Panic "can't find Read method on hash"
      | Some read =>
          outputLen ← Size (methods rh) (state rh);
          Ok (hasher_body (methods rh) read outputLen)
      end
  end.



(** ** Platform *)

Inductive arch : Type := Arch32 | Arch64.

Definition int_bits (p : arch) : Z :=
  match p with Arch32 => 32 | Arch64 => 64 end.

(** Conversion of an unsigned value to Go's [int]. *)
Definition to_int (p : arch) (x : Z) : Z :=
  let y := x mod 2 ^ int_bits p in
  if y <? 2 ^ (int_bits p - 1) then y else y - 2 ^ int_bits p.

Inductive byte_order : Type := LittleEndian | BigEndian.

Definition byte_of (v : Z) : Z := v mod 256.

(** The four bytes of a [uint32] in increasing address order. *)
Definition bytes_in_order (o : byte_order) (v : Z) : list Z :=
  match o with
  | LittleEndian =>
      [byte_of v; byte_of (Z.shiftr v 8); byte_of (Z.shiftr v 16);
       byte_of (Z.shiftr v 24)]
  | BigEndian =>
      [byte_of (Z.shiftr v 24); byte_of (Z.shiftr v 16);
       byte_of (Z.shiftr v 8); byte_of v]
  end.

(** The byte at the address of a [uint32] variable holding 0x01020304. *)
Definition isLittleEndian (host : byte_order) : bool :=
  match bytes_in_order host 0x01020304 with
  | b :: _ => b =? 0x04
  | [] => false
  end.

(** ** Go's [encoding/binary], from its documentation and source *)

Module binary.

(** [PutUint32(b, v)]: bounds check on [b[3]], then the four bytes of
    [v] in the given order into [b[0..3]]. *)
Definition PutUint32 (o : byte_order) (b : list Z) (v : Z)
  : outcome (list Z) :=
  if decide (3 < length b)%nat
  then Ok (bytes_in_order o v ++ drop 4 b)
  else Panic "index out of range".

(** [Uint32(b)]: the four bytes [b[0..3]] put together in the given
    order. *)
Definition Uint32 (o : byte_order) (b : list Z) : outcome Z :=
  match b with
  | b0 :: b1 :: b2 :: b3 :: _ =>
      match o with
      | LittleEndian =>
          Ok (Z.lor (Z.lor (Z.lor b0 (Z.shiftl b1 8)) (Z.shiftl b2 16))
                    (Z.shiftl b3 24))
      | BigEndian =>
          Ok (Z.lor (Z.lor (Z.lor b3 (Z.shiftl b2 8)) (Z.shiftl b1 16))
                    (Z.shiftl b0 24))
      end
  | _ => Panic "index out of range"
  end.

End binary.

(** ** Array utils *)

(** [buf[k:]] *)
Definition slice_from (buf : list Z) (k : nat) : outcome (list Z) :=
  if decide (k <= length buf)%nat
  then Ok (drop k buf)
  else Panic "slice bounds out of range".

(** The loop [for i, v := range c { PutUint32(buf[i*4:], v) }], at index
    [i] with the words [c] still to come. *)
Fixpoint put_words (o : byte_order) (i : nat) (c : list Z) (buf : list Z)
  : outcome (list Z) :=
  match c with
  | [] => Ok buf
  | v :: c' =>
      b ← slice_from buf (i * 4);
      b' ← binary.PutUint32 o b v;
      put_words o (S i) c' (take (i * 4) buf ++ b')
  end.

Definition uint32Array2ByteArray (host : byte_order) (c : list Z)
  : outcome (list Z) :=
  let buf := replicate (length c * 4) 0 in
  if isLittleEndian host
  then put_words LittleEndian 0 c buf
  else put_words BigEndian 0 c buf.

(** ** Keccak and the seed chain *)

Section Sha3.

Context {St : Type}.

(** The value [sha3.NewLegacyKeccak256()] returns. *)
Variable NewLegacyKeccak256 : HashObj St.

Definition Keccak256 (b : list Z) : list Z :=
  let d := NewLegacyKeccak256 in
  let st := Write (methods d) b (state d) in
  Sum (methods d) [] st.

(** The loop [for i := 0; i < n; i++ { keccak256(seed, seed) }] with [k]
    iterations left. *)
Fixpoint seedHash_loop (keccak256 : hasher St) (k : nat) (seed : slice)
    (s : St * store) : outcome (St * store) :=
  match k with
  | O => Ok s
  | S k' =>
      s' ← keccak256 seed seed s;
      seedHash_loop keccak256 k' seed s'
  end.

Definition seedHash (p : arch) (block epochLength : Z)
  : outcome (list Z) :=
  let m := replicate 32 0 in
  let seed := Slice 0 32 32 in
  if block <? epochLength then Ok (view seed m)
  else
    keccak256 ← makeHasher (Some NewLegacyKeccak256);
    if epochLength =? 0 then Panic "integer divide by zero"
    else
      let n := to_int p (block / epochLength) in
      '(_, m') ← seedHash_loop keccak256 (Z.to_nat n) seed
                   (state NewLegacyKeccak256, m);
      Ok (view seed m').

End Sha3.

(** ** The specification's own formulas *)

Module Spec.

Definition rotl (a b : Z) : Z :=
  Z.lor ((a * 2 ^ (b mod 32)) mod 2 ^ 32)
        (a / 2 ^ ((32 - b mod 32) mod 32)).

Definition rotr (a b : Z) : Z :=
  Z.lor ((a * 2 ^ ((32 - b mod 32) mod 32)) mod 2 ^ 32)
        (a / 2 ^ (b mod 32)).

(** Upper 32 bits of the full 64-bit product. *)
Definition highWordOfProduct (a b : Z) : Z := (a * b) / 2 ^ 32.

Definition minOf (a b : Z) : Z := Z.min a b.

(** Zero bits above the highest set bit among bits [n-1 .. 0]. *)
Fixpoint leading_zeros (n : nat) (a : Z) : Z :=
  match n with
  | O => 0
  | S n' =>
      if Z.testbit a (Z.of_nat n') then 0 else 1 + leading_zeros n' a
  end.

Definition countLeadingZeros (a : Z) : Z := leading_zeros 32 a.

(** Set bits among bits [n-1 .. 0]. *)
Fixpoint set_bits (n : nat) (a : Z) : Z :=
  match n with
  | O => 0
  | S n' => Z.b2z (Z.testbit a (Z.of_nat n')) + set_bits n' a
  end.

Definition countSetBits (a : Z) : Z := set_bits 32 a.

(** The table of section 4.6, indexed by [selector mod 11]. *)
Definition randomMath_table (a b : Z) : list Z :=
  [ (a + b) mod 2 ^ 32;
    (a * b) mod 2 ^ 32;
    highWordOfProduct a b;
    minOf a b;
    rotl a b;
    rotr a b;
    Z.land a b;
    Z.lor a b;
    Z.lxor a b;
    (countLeadingZeros a + countLeadingZeros b) mod 2 ^ 32;
    (countSetBits a + countSetBits b) mod 2 ^ 32 ].

(** The table of section 4.6, indexed by [selector mod 4], for the
    rotate amount [x]. *)
Definition randomMerge_table (a b x : Z) : list Z :=
  [ ((a * 33) mod 2 ^ 32 + b) mod 2 ^ 32;
    (Z.lxor a b * 33) mod 2 ^ 32;
    Z.lxor (rotl a x) b;
    Z.lxor (rotr a x) b ].

Definition merge_x (selector : Z) : Z := (selector / 2 ^ 16) mod 31 + 1.

(** [f] applied [n] times. *)
Fixpoint iterate {A} (n : nat) (f : A -> A) (x : A) : A :=
  match n with
  | O => x
  | S n' => f (iterate n' f x)
  end.


End Spec.

Definition is_u32 (x : Z) : Prop := 0 <= x < 2 ^ 32.
Definition is_u64 (x : Z) : Prop := 0 <= x < 2 ^ 64.

(** Element [i] of [s] in the store [m]. *)
Definition elem (s : slice) (i : nat) (m : store) : Z :=
  m !!! (off s + i)%nat.

(** The accesses of one round of the mixer's loop, in program order. *)
Definition fnv_round (mix data : slice) (i : nat) : list access :=
  [Load mix i; Load data i; Store mix i].

(** ** The legacy Keccak-256 of [golang.org/x/crypto/sha3]

    The sponge over Keccak-f[1600] with rate 136 and the padding that
    predates the standard (0x01 ... 0x80), and the object
    [NewLegacyKeccak256] returns, whose [Read] squeezes the sponge and
    whose [Sum] squeezes a copy of it.  The package is not part of this
    repository; it is written here after the Keccak reference and checked
    below against known digests, to run the hash utilities on.  (In the
    package a [Write] after a [Read] panics; the utilities reset the
    object before every [Write].) *)

Module Keccak.

Definition lane_mask : Z := 2 ^ 64 - 1.

Definition rot64 (a : Z) (n : Z) : Z :=
  Z.land (Z.lor (Z.shiftl a n) (Z.shiftr a (64 - n))) lane_mask.

Definition round_constants : list Z :=
  [ 0x0000000000000001; 0x0000000000008082; 0x800000000000808A;
    0x8000000080008000; 0x000000000000808B; 0x0000000080000001;
    0x8000000080008081; 0x8000000000008009; 0x000000000000008A;
    0x0000000000000088; 0x0000000080008009; 0x000000008000000A;
    0x000000008000808B; 0x800000000000008B; 0x8000000000008089;
    0x8000000000008003; 0x8000000000008002; 0x8000000000000080;
    0x000000000000800A; 0x800000008000000A; 0x8000000080008081;
    0x8000000000008080; 0x0000000080000001; 0x8000000080008008 ].

(** Rotation offsets, at index [x + 5 * y]. *)
Definition rotation_offsets : list Z :=
  [ 0; 1; 62; 28; 27;
    36; 44; 6; 55; 20;
    3; 10; 43; 25; 39;
    41; 45; 15; 21; 8;
    18; 2; 61; 56; 14 ].

(** The 25 lanes of a state, lane [(x, y)] at index [x + 5 * y]. *)
Definition lane (a : list Z) (x y : nat) : Z :=
  a !!! (x mod 5 + 5 * (y mod 5))%nat.

Definition coords : list (nat * nat) :=
  y ← seq 0 5; x ← seq 0 5; [(x, y)].

Definition theta (a : list Z) : list Z :=
  let c x := foldr Z.lxor 0 (map (lane a x) (seq 0 5)) in
  let d x := Z.lxor (c (x + 4)%nat) (rot64 (c (x + 1)%nat) 1) in
  map (fun '(x, y) => Z.lxor (lane a x y) (d x)) coords.

(** Lane [(x, y)] after the rotations and the transposition comes from
    lane [(x + 3y, x)]. *)
Definition rho_pi (a : list Z) : list Z :=
  map (fun '(x, y) =>
         let x0 := ((x + 3 * y) mod 5)%nat in
         let y0 := x in
         rot64 (lane a x0 y0) (rotation_offsets !!! (x0 + 5 * y0)%nat))
      coords.

Definition chi (b : list Z) : list Z :=
  map (fun '(x, y) =>
         Z.lxor (lane b x y)
           (Z.land (Z.lxor (lane b (x + 1) y) lane_mask) (lane b (x + 2) y)))
      coords.

Definition iota (rc : Z) (a : list Z) : list Z :=
  match a with
  | a0 :: rest => Z.lxor a0 rc :: rest
  | [] => []
  end.

Definition round (a : list Z) (rc : Z) : list Z :=
  iota rc (chi (rho_pi (theta a))).

Definition keccak_f (a : list Z) : list Z :=
  foldl round a round_constants.

Fixpoint lane_of_bytes (bs : list Z) : Z :=
  match bs with
  | [] => 0
  | b :: bs' => Z.lor b (Z.shiftl (lane_of_bytes bs') 8)
  end.

Fixpoint bytes_of_lane (n : nat) (w : Z) : list Z :=
  match n with
  | O => []
  | S n' => Z.land w 255 :: bytes_of_lane n' (Z.shiftr w 8)
  end.

Fixpoint lanes_of_bytes (n : nat) (bs : list Z) : list Z :=
  match n with
  | O => []
  | S n' => lane_of_bytes (take 8 bs) :: lanes_of_bytes n' (drop 8 bs)
  end.

Definition state_bytes (a : list Z) : list Z :=
  flat_map (bytes_of_lane 8) a.

Definition absorb_block (a : list Z) (block : list Z) : list Z :=
  keccak_f (zip_with Z.lxor a (lanes_of_bytes 25 block)).

Definition pad (rate : nat) (msg : list Z) : list Z :=
  let k := (rate - length msg mod rate)%nat in
  if decide (k = 1)%nat then msg ++ [0x81]
  else msg ++ [0x01] ++ replicate (k - 2) 0 ++ [0x80].

(** Absorbs [msg] block by block; [fuel] bounds the number of blocks. *)
Fixpoint absorb (fuel : nat) (rate : nat) (a : list Z) (msg : list Z)
  : list Z :=
  match fuel with
  | O => a
  | S f =>
      match msg with
      | [] => a
      | _ => absorb f rate (absorb_block a (take rate msg)) (drop rate msg)
      end
  end.

Fixpoint squeeze (blocks : nat) (rate : nat) (a : list Z) : list Z :=
  match blocks with
  | O => []
  | S k => take rate (state_bytes a) ++ squeeze k rate (keccak_f a)
  end.

(** The first [n] bytes the sponge gives for [msg]. *)
Definition sponge (rate : nat) (msg : list Z) (n : nat) : list Z :=
  let p := pad rate msg in
  let a := absorb (length p) rate (replicate 25 0) p in
  take n (squeeze (S (n / rate)) rate a).

End Keccak.

Module sha3.

(** The bytes written since the last reset, and how many bytes of output
    have been read. *)
Record sponge : Type := State { absorbed : list Z; squeezed : nat }.

Definition rate : nat := 136.
Definition outputLen : nat := 32.

Definition squeeze_from (st : sponge) (n : nat) : list Z :=
  drop (squeezed st) (Keccak.sponge rate (absorbed st) (squeezed st + n)).

Definition read (n : nat) (st : sponge) : list Z * sponge :=
  (squeeze_from st n, State (absorbed st) (squeezed st + n)).

Definition keccak256_methods : HashMethods sponge :=
  {| Write := fun b st => State (absorbed st ++ b) (squeezed st);
     Sum := fun b st => b ++ squeeze_from st outputLen;
     Reset := fun _ => State [] 0;
     Size := fun _ => Ok (Z.of_nat outputLen);
     BlockSize := fun _ => Z.of_nat rate;
     Read := Some read |}.

Definition NewLegacyKeccak256 : HashObj sponge :=
  {| methods := keccak256_methods; state := State [] 0 |}.

End sha3.

(** A nil pointer of the sponge's type as a [hash.Hash]: the type has
    [Read], so the assertion of [makeHasher] holds, and [Size] reads a
    field of the receiver, so the call panics.  No other method of it is
    reached. *)
Module sha3_nil.


Definition read (n : nat) (p : option sha3.sponge)
  : list Z * option sha3.sponge :=
  match p with
  | Some st => (fst (sha3.read n st), Some (snd (sha3.read n st)))
  | None => ([], None)
  end.



End sha3_nil.

(** ** A checksum without a [Read] method

    A [hash.Hash] of [size] bytes, such as those of [hash/crc32] or
    [crypto/sha256], that has no [Read]: its state is the bytes written so
    far. *)

Module TestHash.

Definition digest (size : nat) (st : list Z) : list Z :=
  map (fun i => (foldr Z.add 0 st + Z.of_nat i) mod 256) (seq 0 size).

Definition without_Read (size : nat) : HashMethods (list Z) :=
  {| Write := fun b st => st ++ b;
     Sum := fun b st => b ++ digest size st;
     Reset := fun _ => [];
     Size := fun _ => Ok (Z.of_nat size);
     BlockSize := fun _ => 1;
     Read := None |}.

Definition New (size : nat) : HashObj (list Z) :=
  {| methods := without_Read size; state := [] |}.

End TestHash.

(** Big-endian value of a byte string, to compare digests with their
    usual hexadecimal writing. *)
Definition hex_value (bs : list Z) : Z :=
  foldl (fun acc b => acc * 256 + b) 0 bs.

(** ** The remaining utilities of [util.go] *)

Definition max (a b : Z) : Z :=
  if a >? b then a else b.

(** The loop of [swap] at index [i], with [n] rounds left: the word read
    little-endian from [buffer[i:]] is put back big-endian at [buffer[i:]]. *)
Fixpoint swap_loop (n i : nat) (buffer : list Z) : outcome (list Z) :=
  match n with
  | O => Ok buffer
  | S n' =>
      dst ← slice_from buffer i;
      src ← slice_from buffer i;
      v ← binary.Uint32 LittleEndian src;
      dst' ← binary.PutUint32 BigEndian dst v;
      swap_loop n' (i + 4) (take i buffer ++ dst')
  end.

(** [for i := 0; i < len(buffer); i += 4] makes [ceil(len / 4)] rounds. *)
Definition swap (buffer : list Z) : outcome (list Z) :=
  swap_loop ((length buffer + 3) / 4) 0 buffer.

Section Sha3_512.

Context {St : Type}.

(** The value [sha3.NewLegacyKeccak512()] returns. *)
Variable NewLegacyKeccak512 : HashObj St.

Definition Keccak512 (b : list Z) : list Z :=
  let d := NewLegacyKeccak512 in
  let st := Write (methods d) b (state d) in
  Sum (methods d) [] st.

End Sha3_512.

(** [hexutil.Encode] of go-ethereum, from its documentation and source:
    the prefix [0x], then two lower-case digits per byte, high nibble
    first. *)
Module hexutil.

Definition hextable : list ascii :=
  ["0"; "1"; "2"; "3"; "4"; "5"; "6"; "7"; "8"; "9";
   "a"; "b"; "c"; "d"; "e"; "f"]%char.

Definition digit (n : Z) : ascii := nth (Z.to_nat n) hextable "0"%char.

Fixpoint hex_Encode (b : list Z) : string :=
  match b with
  | [] => EmptyString
  | v :: b' =>
      String (digit (Z.shiftr v 4))
        (String (digit (Z.land v 15)) (hex_Encode b'))
  end.

Definition Encode (b : list Z) : string :=
  String "0" (String "x" (hex_Encode b)).

End hexutil.

Section WordsDigest.

Context {St : Type}.
Variable NewLegacyKeccak256 : HashObj St.

Definition uint32Array2Keccak256 (host : byte_order) (data : list Z)
  : outcome string :=
  bytes ← uint32Array2ByteArray host data;
  let digest := Keccak256 NewLegacyKeccak256 bytes in
  Ok (hexutil.Encode digest).

End WordsDigest.

(** The legacy Keccak-512 object of the [sha3] package: the same sponge
    with rate 72 and 64 bytes of output. *)
Module sha3_512.

Definition rate : nat := 72.
Definition outputLen : nat := 64.

Definition squeeze_from (st : sha3.sponge) (n : nat) : list Z :=
  drop (sha3.squeezed st)
    (Keccak.sponge rate (sha3.absorbed st) (sha3.squeezed st + n)).

Definition read (n : nat) (st : sha3.sponge) : list Z * sha3.sponge :=
  (squeeze_from st n,
   sha3.State (sha3.absorbed st) (sha3.squeezed st + n)).

Definition keccak512_methods : HashMethods sha3.sponge :=
  {| Write := fun b st =>
       sha3.State (sha3.absorbed st ++ b) (sha3.squeezed st);
     Sum := fun b st => b ++ squeeze_from st outputLen;
     Reset := fun _ => sha3.State [] 0;
     Size := fun _ => Ok (Z.of_nat outputLen);
     BlockSize := fun _ => Z.of_nat rate;
     Read := Some read |}.

Definition NewLegacyKeccak512 : HashObj sha3.sponge :=
  {| methods := keccak512_methods; state := sha3.State [] 0 |}.

End sha3_512.

(** ** Formulas the further properties are stated with *)

Definition is_byte (x : Z) : Prop := 0 <= x < 256.

(** Every group of four bytes in reverse order. *)
Fixpoint rev_groups (buf : list Z) : list Z :=
  match buf with
  | b0 :: b1 :: b2 :: b3 :: rest => b3 :: b2 :: b1 :: b0 :: rev_groups rest
  | _ => []
  end.

(** The inverse of [FNV_PRIME] modulo [2^32]. *)
Definition FNV_PRIME_inverse : Z := 0x359c449b.

(** * Properties *)

(** ** Bits of 32-bit values *)

Lemma land_31 (b : Z) : Z.land b 31 = b mod 32.
Proof. change 31 with (Z.ones 5). rewrite Z.land_ones by lia. reflexivity. Qed.

Lemma sub32_land_31 (b : Z) :
  Z.land (U32.sub 32 b) 31 = (32 - b mod 32) mod 32.
Proof.
  rewrite land_31. unfold U32.sub, U32.wrap, U32.modulus.
  change (2 ^ 32) with 4294967296.
  Z.div_mod_to_equations. lia.
Qed.

Lemma u32_testbit_high (a i : Z) : is_u32 a -> 32 <= i -> Z.testbit a i = false.
Proof.
  intros Ha Hi. rewrite <- (Z.mod_small a (2 ^ 32)) by exact Ha.
  apply Z.mod_pow2_bits_high. lia.
Qed.

Lemma u32_of_bits (x : Z) :
  0 <= x -> (forall i, 32 <= i -> Z.testbit x i = false) -> is_u32 x.
Proof.
  intros Hx Hb. split; [exact Hx|].
  destruct (Z.eq_dec x 0) as [->|Hne]; [reflexivity|].
  apply Z.log2_lt_pow2; [lia|].
  destruct (Z_lt_le_dec (Z.log2 x) 32) as [Hlt|Hge]; [exact Hlt|].
  pose proof (Z.bit_log2 x ltac:(lia)) as Hbit.
  rewrite (Hb _ Hge) in Hbit. discriminate.
Qed.

Lemma lor_u32 (x y : Z) : is_u32 x -> is_u32 y -> is_u32 (Z.lor x y).
Proof.
  intros Hx Hy. apply u32_of_bits.
  - apply Z.lor_nonneg. unfold is_u32 in *. lia.
  - intros i Hi. rewrite Z.lor_spec, !u32_testbit_high by assumption.
    reflexivity.
Qed.

Lemma wrap_u32 (x : Z) : is_u32 (U32.wrap x).
Proof. unfold is_u32, U32.wrap, U32.modulus. apply Z.mod_pos_bound. lia. Qed.

Lemma shr_u32 (a s : Z) : is_u32 a -> 0 <= s -> is_u32 (U32.shr a s).
Proof.
  intros Ha Hs. unfold U32.shr. rewrite Z.shiftr_div_pow2 by exact Hs.
  unfold is_u32 in *. split.
  - apply Z.div_pos; lia.
  - apply Z.le_lt_trans with a; [|lia].
    apply Z.div_le_upper_bound; [lia|]. nia.
Qed.

Lemma rotl32_u32 (a b : Z) : is_u32 a -> is_u32 (rotl32 a b).
Proof.
  intros Ha. unfold rotl32. apply lor_u32; [apply wrap_u32|].
  apply shr_u32; [exact Ha|]. rewrite sub32_land_31.
  apply Z.mod_pos_bound. lia.
Qed.

Lemma rotr32_u32 (a b : Z) : is_u32 a -> is_u32 (rotr32 a b).
Proof.
  intros Ha. unfold rotr32. apply lor_u32; [apply wrap_u32|].
  apply shr_u32; [exact Ha|]. rewrite land_31. apply Z.mod_pos_bound. lia.
Qed.

(** Bit [i] of a left rotation by [k] is bit [i - k] of the operand, the
    index taken modulo 32. *)
Lemma rotl32_testbit (a k i : Z) :
  is_u32 a -> 0 <= k < 32 -> 0 <= i < 32 ->
  Z.testbit (rotl32 a k) i = Z.testbit a ((i - k) mod 32).
Proof.
  intros Ha Hk Hi. unfold rotl32, U32.shl, U32.shr, U32.wrap, U32.modulus.
  rewrite sub32_land_31, land_31, (Z.mod_small k 32) by lia.
  rewrite Z.lor_spec, Z.mod_pow2_bits_low by lia.
  rewrite Z.shiftl_spec, Z.shiftr_spec by lia.
  destruct (Z.eq_dec k 0) as [->|Hk0].
  - change ((32 - 0) mod 32) with 0. rewrite Z.sub_0_r, Z.add_0_r.
    rewrite Z.mod_small by lia. apply orb_diag.
  - rewrite (Z.mod_small (32 - k)) by lia.
    destruct (Z_lt_le_dec i k) as [Hlt|Hge].
    + rewrite (Z.testbit_neg_r a (i - k)) by lia. simpl.
      f_equal. replace (i - k) with (i + (32 - k) + (-1) * 32) by lia.
      rewrite Z.mod_add by lia. rewrite Z.mod_small by lia. reflexivity.
    + rewrite (u32_testbit_high a (i + (32 - k))) by (assumption || lia).
      rewrite orb_false_r, Z.mod_small by lia. reflexivity.
Qed.

(** Bit [i] of a right rotation by [k] is bit [i + k] of the operand, the
    index taken modulo 32. *)
Lemma rotr32_testbit (a k i : Z) :
  is_u32 a -> 0 <= k < 32 -> 0 <= i < 32 ->
  Z.testbit (rotr32 a k) i = Z.testbit a ((i + k) mod 32).
Proof.
  intros Ha Hk Hi. unfold rotr32, U32.shl, U32.shr, U32.wrap, U32.modulus.
  rewrite sub32_land_31, land_31, (Z.mod_small k 32) by lia.
  rewrite Z.lor_spec, Z.mod_pow2_bits_low by lia.
  rewrite Z.shiftl_spec, Z.shiftr_spec by lia.
  destruct (Z.eq_dec k 0) as [->|Hk0].
  - change ((32 - 0) mod 32) with 0. rewrite Z.sub_0_r, Z.add_0_r.
    rewrite Z.mod_small by lia. apply orb_diag.
  - rewrite (Z.mod_small (32 - k)) by lia.
    destruct (Z_lt_le_dec (i + k) 32) as [Hlt|Hge].
    + rewrite (Z.testbit_neg_r a (i - (32 - k))) by lia. simpl.
      rewrite Z.mod_small by lia. reflexivity.
    + rewrite (u32_testbit_high a (i + k)) by (assumption || lia).
      rewrite orb_false_r. f_equal.
      replace (i + k) with (i - (32 - k) + 1 * 32) by lia.
      rewrite Z.mod_add by lia. rewrite Z.mod_small by lia. reflexivity.
Qed.

(** ** The integer operators against the specification's formulas *)

Lemma mul_hi32_spec (a b : Z) :
  is_u32 a -> is_u32 b -> mul_hi32 a b = Spec.highWordOfProduct a b.
Proof.
  unfold is_u32. intros Ha Hb.
  unfold mul_hi32, Spec.highWordOfProduct, U64.shr, U64.mul, U64.wrap,
    U64.modulus, U32.wrap, U32.modulus.
  rewrite (Z.mod_small a), (Z.mod_small b) by lia.
  assert (Hab : 0 <= a * b < 2 ^ 64) by nia.
  rewrite (Z.mod_small (a * b)) by exact Hab.
  rewrite Z.shiftr_div_pow2 by lia.
  apply Z.mod_small. split.
  - apply Z.div_pos; lia.
  - apply Z.div_lt_upper_bound; lia.
Qed.

Lemma minUint32_spec (a b : Z) : minUint32 a b = Spec.minOf a b.
Proof.
  unfold minUint32, Spec.minOf.
  destruct (Z.gtb_spec a b); lia.
Qed.

Lemma leading_zeros_len (n : nat) (a : Z) :
  0 <= a < 2 ^ Z.of_nat n ->
  Spec.leading_zeros n a = Z.of_nat n - bits.Len32 a.
Proof.
  revert a. induction n as [|n IH]; intros a Ha.
  - simpl in *. assert (a = 0) as -> by lia. reflexivity.
  - cbn [Spec.leading_zeros]. rewrite Nat2Z.inj_succ in *.
    rewrite Z.pow_succ_r in Ha by lia.
    destruct (Z_lt_le_dec a (2 ^ Z.of_nat n)) as [Hlt|Hge].
    + rewrite <- (Z.mod_small a (2 ^ Z.of_nat n)) at 1 by lia.
      rewrite Z.mod_pow2_bits_high by lia.
      rewrite IH by lia. lia.
    + assert (Hlog : Z.log2 a = Z.of_nat n).
      { apply Z.log2_unique; [lia|]. rewrite Z.pow_succ_r by lia. lia. }
      assert (Hpos : 0 < a) by lia.
      pose proof (Z.bit_log2 a Hpos) as Hbit. rewrite Hlog in Hbit.
      rewrite Hbit. unfold bits.Len32.
      destruct (Z.eqb_spec a 0); lia.
Qed.

Lemma clz32_spec (a : Z) : is_u32 a -> clz32 a = Spec.countLeadingZeros a.
Proof.
  intros Ha. unfold clz32, Spec.countLeadingZeros, bits.LeadingZeros32.
  rewrite (leading_zeros_len 32 a) by exact Ha.
  change (Z.of_nat 32) with 32.
  apply Z.mod_small. unfold U32.modulus, bits.Len32.
  destruct (Z.eqb_spec a 0) as [->|Hne]; [lia|].
  assert (Z.log2 a < 32) by (apply Z.log2_lt_pow2; unfold is_u32 in Ha; lia).
  pose proof (Z.log2_nonneg a). lia.
Qed.

Lemma ones_succ (n : nat) (x : Z) :
  bits.ones (S n) x = bits.ones n x + Z.b2z (Z.testbit x (Z.of_nat n)).
Proof.
  revert x. induction n as [|n IH]; intros x.
  - cbn [bits.ones]. change (Z.of_nat 0) with 0. rewrite Z.bit0_odd. lia.
  - change (bits.ones (S (S n)) x)
      with (Z.b2z (Z.odd x) + bits.ones (S n) (Z.div2 x)).
    rewrite IH. cbn [bits.ones].
    rewrite Z.div2_spec, Z.shiftr_spec by lia.
    rewrite Nat2Z.inj_succ. unfold Z.succ. lia.
Qed.

Lemma set_bits_ones (n : nat) (a : Z) : Spec.set_bits n a = bits.ones n a.
Proof.
  induction n as [|n IH]; [reflexivity|].
  rewrite ones_succ. cbn [Spec.set_bits]. rewrite IH. lia.
Qed.

Lemma set_bits_bound (n : nat) (a : Z) : 0 <= Spec.set_bits n a <= Z.of_nat n.
Proof.
  induction n as [|n IH]; [simpl; lia|].
  cbn [Spec.set_bits]. rewrite Nat2Z.inj_succ.
  destruct (Z.testbit a (Z.of_nat n)); simpl Z.b2z; lia.
Qed.

Lemma popcount32_spec (a : Z) : popcount32 a = Spec.countSetBits a.
Proof.
  unfold popcount32, Spec.countSetBits, bits.OnesCount32.
  rewrite <- set_bits_ones.
  pose proof (set_bits_bound 32 a) as Hb. change (Z.of_nat 32) with 32 in Hb.
  apply Z.mod_small. unfold U32.modulus. lia.
Qed.

Lemma rotl32_spec (a b : Z) : rotl32 a b = Spec.rotl a b.
Proof.
  unfold rotl32, Spec.rotl, U32.shl, U32.shr, U32.wrap, U32.modulus.
  rewrite sub32_land_31, land_31.
  rewrite Z.shiftl_mul_pow2, Z.shiftr_div_pow2
    by (apply Z.mod_pos_bound; lia).
  reflexivity.
Qed.

Lemma rotr32_spec (a b : Z) : rotr32 a b = Spec.rotr a b.
Proof.
  unfold rotr32, Spec.rotr, U32.shl, U32.shr, U32.wrap, U32.modulus.
  rewrite sub32_land_31, land_31.
  rewrite Z.shiftl_mul_pow2, Z.shiftr_div_pow2
    by (apply Z.mod_pos_bound; lia).
  reflexivity.
Qed.

(** C5: the implemented rotations, with their masks [b & 31] and
    [(32 - b) & 31], are the rotations of section 4.5, for every [a] and
    every [b], also for [b = 0] and [b >= 32]. *)
Theorem C5_rotations_match_formulas (a b : Z) :
  rotl32 a b
    = Z.lor ((a * 2 ^ (b mod 32)) mod 2 ^ 32)
            (a / 2 ^ ((32 - b mod 32) mod 32))
  /\ rotr32 a b
    = Z.lor ((a * 2 ^ ((32 - b mod 32) mod 32)) mod 2 ^ 32)
            (a / 2 ^ (b mod 32)).
Proof. split; [apply rotl32_spec | apply rotr32_spec]. Qed.

(** C6: for a 32-bit [a] and [k] in [0..31], rotating right by [k] undoes
    rotating left by [k]; and [rotl(1, 1) = 2], [rotr(2, 1) = 1]. *)
Theorem C6_rotr_inverts_rotl (a k : Z) :
  is_u32 a -> 0 <= k <= 31 ->
  rotr32 (rotl32 a k) k = a /\ rotl32 1 1 = 2 /\ rotr32 2 1 = 1.
Proof.
  intros Ha Hk. split; [|split; reflexivity].
  pose proof (rotl32_u32 a k Ha) as Hl.
  apply Z.bits_inj'. intros i Hi.
  destruct (Z_lt_le_dec i 32) as [Hlt|Hge].
  - rewrite rotr32_testbit by (assumption || lia).
    rewrite rotl32_testbit
      by (assumption || lia || (apply Z.mod_pos_bound; lia)).
    f_equal. rewrite Zminus_mod_idemp_l.
    replace (i + k - k) with i by lia. apply Z.mod_small. lia.
  - rewrite !u32_testbit_high; auto using rotr32_u32.
Qed.

Lemma C6_rotr_inverts_rotl_witness :
  rotr32 (rotl32 0xDEADBEEF 7) 7 = 0xDEADBEEF /\ rotl32 1 1 = 2
  /\ rotr32 2 1 = 1.
Proof.
  apply (C6_rotr_inverts_rotl 0xDEADBEEF 7); unfold is_u32; lia.
Defined.

(** ** The KawPow operators *)

Lemma mod11_cases (s : Z) :
  let r := s mod 11 in
  r = 0 \/ r = 1 \/ r = 2 \/ r = 3 \/ r = 4 \/ r = 5 \/ r = 6 \/ r = 7
  \/ r = 8 \/ r = 9 \/ r = 10.
Proof. intros r. pose proof (Z.mod_pos_bound s 11 eq_refl). lia. Qed.

Lemma mod4_cases (s : Z) :
  let r := s mod 4 in r = 0 \/ r = 1 \/ r = 2 \/ r = 3.
Proof. intros r. pose proof (Z.mod_pos_bound s 4 eq_refl). lia. Qed.

Ltac on_cases H :=
  repeat (destruct H as [H|H]).

(** Reads the entry of a literal table at a literal index. *)
Ltac table_entry :=
  lazymatch goal with
  | |- ?l !! ?n = _ =>
      let n' := eval vm_compute in n in
      change n with n'; unfold Spec.randomMath_table, Spec.randomMerge_table;
      unfold lookup; cbn [list_lookup]
  end.

(** C2: [randomMath(a, b, selector)] is the entry of the eleven-entry table
    at index [selector mod 11], with 32-bit wrap-around; and the three
    sample values. *)
Theorem C2_randomMath_table (a b selector : Z) :
  is_u32 a -> is_u32 b -> is_u32 selector ->
  Spec.randomMath_table a b !! Z.to_nat (selector mod 11)
    = Some (randomMath a b selector)
  /\ randomMath 5 3 0 = 8
  /\ randomMath 5 3 1 = 15
  /\ randomMath 0xFFFFFFFF 1 0 = 0.
Proof.
  intros Ha Hb _. split; [|repeat split; reflexivity].
  unfold randomMath, randomMath_switch, U32.rem.
  pose proof (mod11_cases selector) as H. cbv zeta in H.
  on_cases H; rewrite H; table_entry; f_equal;
    unfold U32.add, U32.mul, U32.wrap, U32.modulus;
    rewrite <- ?clz32_spec, <- ?popcount32_spec, <- ?rotl32_spec,
      <- ?rotr32_spec, <- ?mul_hi32_spec, <- ?minUint32_spec by assumption;
    reflexivity.
Qed.

Lemma C2_randomMath_table_witness :
  Spec.randomMath_table 0xFFFFFFFF 7 !! Z.to_nat (24 mod 11)
    = Some (randomMath 0xFFFFFFFF 7 24)
  /\ randomMath 5 3 0 = 8
  /\ randomMath 5 3 1 = 15
  /\ randomMath 0xFFFFFFFF 1 0 = 0.
Proof.
  apply (C2_randomMath_table 0xFFFFFFFF 7 24); unfold is_u32; lia.
Defined.

Lemma randomMerge_x_spec (selector : Z) :
  is_u32 selector -> randomMerge_x selector = Spec.merge_x selector.
Proof.
  intros Hs. unfold randomMerge_x, Spec.merge_x, U32.add, U32.rem, U32.shr,
    U32.wrap, U32.modulus.
  rewrite Z.shiftr_div_pow2 by lia.
  pose proof (Z.mod_pos_bound (selector / 2 ^ 16) 31 eq_refl).
  apply Z.mod_small. lia.
Qed.

Lemma merge_x_range (selector : Z) : 1 <= Spec.merge_x selector <= 31.
Proof.
  unfold Spec.merge_x.
  pose proof (Z.mod_pos_bound (selector / 2 ^ 16) 31 eq_refl). lia.
Qed.

(** C3: the rotate amount of [randomMerge] is
    [((selector >> 16) mod 31) + 1], it lies in [1..31], and the result is
    the entry of the four-entry table at index [selector mod 4]. *)
Theorem C3_randomMerge_table (a b selector : Z) :
  is_u32 a -> is_u32 b -> is_u32 selector ->
  let x := randomMerge_x selector in
  x = (selector / 2 ^ 16) mod 31 + 1
  /\ 1 <= x <= 31
  /\ Spec.randomMerge_table a b x !! Z.to_nat (selector mod 4)
     = Some (randomMerge a b selector).
Proof.
  intros Ha Hb Hs x. subst x.
  split; [apply randomMerge_x_spec; exact Hs|].
  split; [rewrite randomMerge_x_spec by exact Hs; apply merge_x_range|].
  unfold randomMerge, randomMerge_switch, U32.rem.
  pose proof (mod4_cases selector) as H. cbv zeta in H.
  on_cases H; rewrite H; table_entry; f_equal;
    unfold U32.add, U32.mul, U32.wrap, U32.modulus;
    rewrite <- ?rotl32_spec, <- ?rotr32_spec; reflexivity.
Qed.

Lemma C3_randomMerge_table_witness :
  let x := randomMerge_x 0x00010000 in
  x = (0x00010000 / 2 ^ 16) mod 31 + 1
  /\ 1 <= x <= 31
  /\ Spec.randomMerge_table 5 9 x !! Z.to_nat (0x00010000 mod 4)
     = Some (randomMerge 5 9 0x00010000).
Proof.
  apply (C3_randomMerge_table 5 9 0x00010000); unfold is_u32; lia.
Defined.

(** C9: the [return 0] after either [switch] is never reached:
    [selector mod 11] is one of [0..10] and [selector mod 4] one of
    [0..3], so a case returns on every call. *)
Theorem C9_trailing_return_unreachable (a b selector : Z) :
  0 <= selector mod 11 <= 10
  /\ 0 <= selector mod 4 <= 3
  /\ randomMath_switch a b selector <> FellThrough
  /\ randomMerge_switch a b selector <> FellThrough.
Proof.
  pose proof (mod11_cases selector) as H11. cbv zeta in H11.
  pose proof (mod4_cases selector) as H4. cbv zeta in H4.
  split; [lia|]. split; [lia|]. split.
  - unfold randomMath_switch, U32.rem.
    on_cases H11; rewrite H11; discriminate.
  - unfold randomMerge_switch, U32.rem.
    on_cases H4; rewrite H4; discriminate.
Qed.

(** ** The FNV mixer *)

Lemma load_ok (s : slice) (i : nat) (m : mem) :
  (i < len s)%nat -> (off s + i < length (cells m))%nat ->
  load s i m
    = Ok (elem s i (cells m), Mem (cells m) (log m ++ [Load s i])).
Proof.
  intros Hi Hm. unfold load, elem.
  destruct (decide (i < len s)%nat); [|lia].
  rewrite (list_lookup_lookup_total_lt _ _ Hm). reflexivity.
Qed.

Lemma assign_ok (s : slice) (i : nat) (v : Z) (m : mem) :
  (i < len s)%nat -> (off s + i < length (cells m))%nat ->
  assign s i v m
    = Ok (Mem (<[(off s + i)%nat := v]> (cells m))
              (log m ++ [Store s i])).
Proof.
  intros Hi Hm. unfold assign.
  destruct (decide (i < len s)%nat); [|lia].
  destruct (decide (off s + i < length (cells m))%nat); [|lia].
  reflexivity.
Qed.

(** The loop from index [i]: it ends, keeps the store's size, leaves every
    cell outside [mix[i..]] alone, logs one round per index, and element
    [j] of [mix] becomes [fnv1] of its old value and of the old [data[j]]
    whenever no earlier round wrote the cell of [data[j]]. *)
Lemma fnvHash_loop_run (mix data : slice) (n : nat) :
  forall (i : nat) (m : mem),
    (i + n = len mix)%nat ->
    (len mix <= len data)%nat ->
    (off mix + len mix <= length (cells m))%nat ->
    (off data + len data <= length (cells m))%nat ->
    exists m',
      fnvHash_loop n i mix data m = Ok m'
      /\ length (cells m') = length (cells m)
      /\ (forall addr, ~ (off mix + i <= addr < off mix + len mix)%nat ->
            cells m' !! addr = cells m !! addr)
      /\ (forall j, (i <= j < len mix)%nat ->
            (forall j', (i <= j' < j)%nat ->
               (off data + j)%nat <> (off mix + j')%nat) ->
            elem mix j (cells m')
              = fnv1 (elem mix j (cells m)) (elem data j (cells m)))
      /\ log m' = log m ++ flat_map (fnv_round mix data) (seq i n).
Proof.
  induction n as [|n IH]; intros i m Hin Hlen Hmix Hdata.
  - exists m. cbn [fnvHash_loop seq flat_map]. rewrite app_nil_r.
    repeat split; try reflexivity. intros j Hj. lia.
  - cbn [fnvHash_loop].
    rewrite load_ok by lia. cbn [mbind outcome_bind].
    rewrite load_ok by (cbn [cells]; lia). cbn [mbind outcome_bind cells log].
    rewrite assign_ok by (cbn [cells]; lia).
    cbn [mbind outcome_bind cells log].
    set (v := fnv1 (elem mix i (cells m)) (elem data i (cells m))).
    set (m3 := Mem _ _).
    assert (Hsz : length (cells m3) = length (cells m))
      by (subst m3; cbn [cells]; apply length_insert).
    destruct (IH (S i) m3) as (m' & Hrun & Hlen' & Hframe & Hval & Hlog);
      try lia.
    exists m'. split; [exact Hrun|]. split; [lia|]. split; [|split].
    + intros addr Haddr. rewrite Hframe by lia.
      subst m3. cbn [cells]. apply list_lookup_insert_ne. lia.
    + intros j Hj Hfree.
      destruct (decide (j = i)) as [->|Hne].
      * unfold elem at 1. rewrite list_lookup_total_alt, Hframe by lia.
        subst m3. cbn [cells].
        rewrite list_lookup_insert_eq by lia. reflexivity.
      * rewrite Hval by (try lia; intros j' Hj'; apply Hfree; lia).
        subst m3. cbn [cells]. unfold elem.
        rewrite !list_lookup_total_alt.
        rewrite !list_lookup_insert_ne; [reflexivity| |lia].
        intros Heq. apply (Hfree i); [lia|]. lia.
    + rewrite Hlog. subst m3. cbn [log seq flat_map].
      rewrite <- !app_assoc. reflexivity.
Qed.

Lemma view_lookup (s : slice) (m : store) (i : nat) :
  (i < len s)%nat -> view s m !! i = m !! (off s + i)%nat.
Proof.
  intros Hi. unfold view. rewrite lookup_take_lt by exact Hi.
  apply lookup_drop.
Qed.

Lemma view_length (s : slice) (m : store) :
  (off s + len s <= length m)%nat -> length (view s m) = len s.
Proof.
  intros H. unfold view. rewrite length_take, length_drop. lia.
Qed.

Lemma view_frame (s : slice) (m m' : store) :
  (forall addr, in_cells s addr -> m' !! addr = m !! addr) ->
  view s m' = view s m.
Proof.
  intros H. apply list_eq. intros i.
  destruct (decide (i < len s)%nat) as [Hi|Hi].
  - rewrite !view_lookup by exact Hi. apply H. unfold in_cells. lia.
  - unfold view. rewrite !lookup_take_ge by lia. reflexivity.
Qed.

(** C4 (amended): when [len(data) >= len(mix)] and no [data[i]] sits in
    the cell of an earlier [mix[j]], [j < i] (so for slices that do not
    overlap, and for [data] and [mix] the same slice), the call returns
    and every [mix[i]] has become [(old mix[i] * 0x01000193) XOR data[i]]
    with 32-bit wrap-around, that is [fnv1(old mix[i], data[i])]; and
    [fnvMix([1, 2], [3, 4])] leaves [mix = [fnv1(1,3), fnv1(2,4)]]. *)
Theorem C4_fnvHash_elementwise (mix data : slice) (m : mem) :
  slice_wf (cells m) mix -> slice_wf (cells m) data ->
  (len mix <= len data)%nat ->
  (forall i j, (j < i < len mix)%nat ->
     (off data + i)%nat <> (off mix + j)%nat) ->
  (exists m',
     fnvHash mix data m = Ok m'
     /\ forall i, (i < len mix)%nat ->
          elem mix i (cells m')
            = Z.lxor ((elem mix i (cells m) * 0x01000193) mod 2 ^ 32)
                     (elem data i (cells m))
          /\ elem mix i (cells m')
            = fnv1 (elem mix i (cells m)) (elem data i (cells m)))
  /\ (exists m1,
        fnvHash (Slice 0 2 2) (Slice 2 2 2) (Mem [1; 2; 3; 4] []) = Ok m1
        /\ view (Slice 0 2 2) (cells m1) = [fnv1 1 3; fnv1 2 4]).
Proof.
  intros [Hm1 Hm2] [Hd1 Hd2] Hlen Hfree. split.
  - destruct (fnvHash_loop_run mix data (len mix) 0 m)
      as (m' & Hrun & _ & _ & Hval & _); try lia.
    exists m'. split; [exact Hrun|]. intros i Hi.
    assert (Hv : elem mix i (cells m')
                 = fnv1 (elem mix i (cells m)) (elem data i (cells m))).
    { apply Hval; [lia|]. intros j Hj. apply Hfree. lia. }
    split; [|exact Hv]. rewrite Hv. reflexivity.
  - eexists. split; reflexivity.
Qed.

Lemma C4_fnvHash_elementwise_witness :
  (exists m',
     fnvHash (Slice 0 2 2) (Slice 2 2 2) (Mem [1; 2; 3; 4] []) = Ok m'
     /\ forall i, (i < 2)%nat ->
          elem (Slice 0 2 2) i (cells m')
            = Z.lxor ((elem (Slice 0 2 2) i [1; 2; 3; 4] * 0x01000193)
                        mod 2 ^ 32)
                     (elem (Slice 2 2 2) i [1; 2; 3; 4])
          /\ elem (Slice 0 2 2) i (cells m')
            = fnv1 (elem (Slice 0 2 2) i [1; 2; 3; 4])
                   (elem (Slice 2 2 2) i [1; 2; 3; 4]))
  /\ (exists m1,
        fnvHash (Slice 0 2 2) (Slice 2 2 2) (Mem [1; 2; 3; 4] []) = Ok m1
        /\ view (Slice 0 2 2) (cells m1) = [fnv1 1 3; fnv1 2 4]).
Proof.
  apply (C4_fnvHash_elementwise (Slice 0 2 2) (Slice 2 2 2)
           (Mem [1; 2; 3; 4] [])).
  - unfold slice_wf; simpl; lia.
  - unfold slice_wf; simpl; lia.
  - simpl; lia.
  - simpl; lia.
Defined.

(** C4 as stated fails where [data] starts one cell before [mix] in the
    same array [[1, 2, 3]]: [mix = arr[1:3]], [data = arr[0:2]].  The
    second round reads [data[1]] after the first round has overwritten
    it. *)
Lemma C4_counterexample :
  slice_wf [1; 2; 3] (Slice 1 2 2)
  /\ slice_wf [1; 2; 3] (Slice 0 2 3)
  /\ (len (Slice 1 2 2) <= len (Slice 0 2 3))%nat
  /\ exists m',
       fnvHash (Slice 1 2 2) (Slice 0 2 3) (Mem [1; 2; 3] []) = Ok m'
       /\ elem (Slice 1 2 2) 1 (cells m')
          <> fnv1 (elem (Slice 1 2 2) 1 [1; 2; 3])
                  (elem (Slice 0 2 3) 1 [1; 2; 3]).
Proof.
  split; [unfold slice_wf; simpl; lia|].
  split; [unfold slice_wf; simpl; lia|].
  split; [simpl; lia|].
  eexists. split; [reflexivity|]. vm_compute. discriminate.
Qed.

Lemma fnv_round_log (mix data : slice) (n : nat) (a : access) :
  a ∈ flat_map (fnv_round mix data) (seq 0 n) ->
  exists i, (i < n)%nat /\ (a = Load mix i \/ a = Load data i \/ a = Store mix i).
Proof.
  rewrite list_elem_of_In, in_flat_map. intros (i & Hi & Ha).
  apply in_seq in Hi. exists i. split; [lia|].
  unfold fnv_round in Ha. simpl in Ha. intuition congruence.
Qed.

(** C10 (amended): for [len(data) >= len(mix)] the call returns; it writes
    no cell outside [mix], so every element of [data] whose cell is not a
    cell of [mix] keeps its value, and [data] as a whole does when the two
    slices share no cell; the store and [mix] keep their lengths; and the
    accesses of the call are, index by index below [len(mix)], a read of
    [mix[i]], a read of [data[i]] and a write of [mix[i]]: no element of
    [data] is written and none at an index [>= len(mix)] is read. *)
Theorem C10_fnvHash_frame (mix data : slice) (m : mem) :
  slice_wf (cells m) mix -> slice_wf (cells m) data ->
  (len mix <= len data)%nat ->
  exists m',
    fnvHash mix data m = Ok m'
    /\ length (cells m') = length (cells m)
    /\ length (view mix (cells m')) = len mix
    /\ (forall addr, ~ in_cells mix addr -> cells m' !! addr = cells m !! addr)
    /\ (forall i, (i < len data)%nat -> ~ in_cells mix (off data + i)%nat ->
          elem data i (cells m') = elem data i (cells m))
    /\ (disjoint_cells data mix -> view data (cells m') = view data (cells m))
    /\ log m' = log m ++ flat_map (fnv_round mix data) (seq 0 (len mix))
    /\ (forall a, a ∈ flat_map (fnv_round mix data) (seq 0 (len mix)) ->
          match a with
          | Load s i => (s = mix \/ s = data) /\ (i < len mix)%nat
          | Store s i =>
              s = mix /\ (i < len mix)%nat /\ in_cells mix (addr_of a)
          end).
Proof.
  intros [Hm1 Hm2] [Hd1 Hd2] Hlen.
  destruct (fnvHash_loop_run mix data (len mix) 0 m)
    as (m' & Hrun & Hsz & Hframe & _ & Hlog); try lia.
  assert (Hout : forall addr, ~ in_cells mix addr ->
                   cells m' !! addr = cells m !! addr).
  { intros addr Haddr. apply Hframe. unfold in_cells in Haddr. lia. }
  exists m'. split; [exact Hrun|]. split; [exact Hsz|].
  split; [apply view_length; lia|]. split; [exact Hout|].
  split; [|split; [|split; [exact Hlog|]]].
  - intros i Hi Hnot. unfold elem.
    rewrite !list_lookup_total_alt, Hout by exact Hnot. reflexivity.
  - intros Hdis. apply view_frame. intros addr Haddr.
    apply Hout. apply Hdis. exact Haddr.
  - intros a Ha. apply fnv_round_log in Ha as (i & Hi & Hcase).
    destruct Hcase as [Heq|[Heq|Heq]]; subst a; auto.
    unfold in_cells, addr_of. repeat split; lia.
Qed.

Lemma C10_fnvHash_frame_witness :
  exists m',
    fnvHash (Slice 0 2 2) (Slice 2 3 3) (Mem [1; 2; 3; 4; 5] []) = Ok m'
    /\ length (cells m') = 5%nat
    /\ length (view (Slice 0 2 2) (cells m')) = 2%nat
    /\ (forall addr, ~ in_cells (Slice 0 2 2) addr ->
          cells m' !! addr = [1; 2; 3; 4; 5] !! addr)
    /\ (forall i, (i < 3)%nat -> ~ in_cells (Slice 0 2 2) (2 + i)%nat ->
          elem (Slice 2 3 3) i (cells m')
            = elem (Slice 2 3 3) i [1; 2; 3; 4; 5])
    /\ (disjoint_cells (Slice 2 3 3) (Slice 0 2 2) ->
          view (Slice 2 3 3) (cells m') = view (Slice 2 3 3) [1; 2; 3; 4; 5])
    /\ log m'
       = [] ++ flat_map (fnv_round (Slice 0 2 2) (Slice 2 3 3)) (seq 0 2)
    /\ (forall a,
          a ∈ flat_map (fnv_round (Slice 0 2 2) (Slice 2 3 3)) (seq 0 2) ->
          match a with
          | Load s i =>
              (s = Slice 0 2 2 \/ s = Slice 2 3 3) /\ (i < 2)%nat
          | Store s i =>
              s = Slice 0 2 2 /\ (i < 2)%nat
              /\ in_cells (Slice 0 2 2) (addr_of a)
          end).
Proof.
  apply (C10_fnvHash_frame (Slice 0 2 2) (Slice 2 3 3)
           (Mem [1; 2; 3; 4; 5] [])).
  - unfold slice_wf; simpl; lia.
  - unfold slice_wf; simpl; lia.
  - simpl; lia.
Defined.

(** C10 as stated fails when the two arguments are the same slice: the
    call [fnvHash(s, s)] on [s = [1, 2]] changes [data[0]]. *)
Lemma C10_counterexample :
  slice_wf [1; 2] (Slice 0 2 2)
  /\ (len (Slice 0 2 2) <= len (Slice 0 2 2))%nat
  /\ exists m',
       fnvHash (Slice 0 2 2) (Slice 0 2 2) (Mem [1; 2] []) = Ok m'
       /\ elem (Slice 0 2 2) 0 (cells m') <> elem (Slice 0 2 2) 0 [1; 2]
       /\ view (Slice 0 2 2) (cells m') <> view (Slice 0 2 2) [1; 2].
Proof.
  split; [unfold slice_wf; simpl; lia|]. split; [simpl; lia|].
  eexists. split; [reflexivity|]. split; vm_compute; discriminate.
Qed.

(** ** Words to bytes *)

Lemma byte_of_testbit (v i : Z) :
  0 <= i -> Z.testbit (byte_of v) i = (i <? 8) && Z.testbit v i.
Proof.
  intros Hi. unfold byte_of. change 256 with (2 ^ 8).
  destruct (Z.ltb_spec i 8).
  - rewrite Z.mod_pow2_bits_low by lia. reflexivity.
  - rewrite Z.mod_pow2_bits_high by lia. reflexivity.
Qed.










Example uint32Array2ByteArray_empty (host : byte_order) :
  uint32Array2ByteArray host [] = Ok [].
Proof. destruct host; reflexivity. Qed.

Example uint32Array2ByteArray_big_endian :
  uint32Array2ByteArray BigEndian [0x01020304] = Ok [1; 2; 3; 4].
Proof. reflexivity. Qed.

(** ** The reusable hasher *)



Lemma makeHasher_returns {St} (rh : HashObj St) read (outputLen : Z) :
  Read (methods rh) = Some read ->
  Size (methods rh) (state rh) = Ok outputLen ->
  makeHasher (Some rh) = Ok (hasher_body (methods rh) read outputLen).
Proof. intros H HSize. unfold makeHasher. rewrite H, HSize. reflexivity. Qed.

Lemma reslice_to_ok (s : slice) (k : Z) :
  0 <= k <= Z.of_nat (cap s) ->
  reslice_to s k = Ok (Slice (off s) (Z.to_nat k) (cap s)).
Proof.
  intros Hk. unfold reslice_to.
  destruct (Z.leb_spec 0 k), (Z.leb_spec k (Z.of_nat (cap s))); try lia.
  reflexivity.
Qed.


(** A call of the closure on a [dest] with room for [outputLen] bytes. *)
Lemma hasher_body_ok {St} (rh : HashMethods St) read (outputLen : Z)
    (dest data : slice) (st : St) (m : store) :
  0 <= outputLen <= Z.of_nat (cap dest) ->
  let absorbed := Write rh (view data m) (Reset rh st) in
  let window := Slice (off dest) (Z.to_nat outputLen) (cap dest) in
  hasher_body rh read outputLen dest data (st, m)
    = Ok (snd (read (Z.to_nat outputLen) absorbed),
          blit window (fst (read (Z.to_nat outputLen) absorbed)) m).
Proof.
  intros Hk absorbed window. unfold hasher_body.
  rewrite reslice_to_ok by exact Hk. cbn [mbind outcome_bind len].
  fold absorbed. destruct (read (Z.to_nat outputLen) absorbed) as [out st3].
  reflexivity.
Qed.


(** [blit] with as many bytes as the window is long: the window then
    holds these bytes, the store keeps its size, and the cells outside the
    window keep their values. *)
Lemma blit_full (w : slice) (out : list Z) (m : store) :
  length out = len w -> (off w + len w <= length m)%nat ->
  view w (blit w out m) = out
  /\ length (blit w out m) = length m
  /\ (forall addr, ~ in_cells w addr -> blit w out m !! addr = m !! addr).
Proof.
  intros Hout Hm. unfold blit, view.
  rewrite (take_ge out) by lia. rewrite Hout.
  split; [|split].
  - rewrite drop_app_length' by (rewrite length_take; lia).
    rewrite take_app_length' by lia. reflexivity.
  - rewrite !length_app, length_take, length_drop. lia.
  - intros addr Haddr. unfold in_cells in Haddr.
    destruct (decide (addr < off w)%nat) as [Hlt|Hge].
    + rewrite lookup_app_l by (rewrite length_take; lia).
      apply lookup_take_lt. exact Hlt.
    + rewrite lookup_app_r by (rewrite length_take; lia).
      rewrite lookup_app_r by (rewrite length_take; lia).
      rewrite lookup_drop, length_take. f_equal. lia.
Qed.




Example makeHasher_nil : makeHasher (@None (HashObj (list Z)))
  = Panic "can't find Read method on hash".
Proof. reflexivity. Qed.

Example makeHasher_without_Read :
  makeHasher (Some (TestHash.New 4))
    = Panic "can't find Read method on hash".
Proof. reflexivity. Qed.

(** ** The seed chain *)

Lemma iterate_shift {A} (n : nat) (f : A -> A) (x : A) :
  Spec.iterate n f (f x) = f (Spec.iterate n f x).
Proof. induction n as [|n IH]; [reflexivity|]. simpl. rewrite IH. reflexivity. Qed.

Lemma to_int_small (p : arch) (x : Z) :
  0 <= x < 2 ^ (int_bits p - 1) -> to_int p x = x.
Proof.
  intros Hx. unfold to_int.
  assert (Hp : 2 ^ int_bits p = 2 * 2 ^ (int_bits p - 1)) by (destruct p; reflexivity).
  rewrite Z.mod_small by lia.
  destruct (Z.ltb_spec x (2 ^ (int_bits p - 1))); lia.
Qed.

Lemma view_whole (m : store) : length m = 32%nat -> view (Slice 0 32 32) m = m.
Proof. intros H. unfold view. cbn [off len drop]. apply take_ge. lia. Qed.

Section SeedChain.

Context {St : Type}.

(** The Keccak-256 object of the [sha3] package and what the seed chain
    relies on: the object has a [Read] method, its size is 32, a [Read]
    of 32 bytes after [Reset] and [Write] gives the digest that [Sum]
    gives on a new object, and that digest has 32 bytes. *)
Variable K : HashObj St.
Variable read : nat -> St -> list Z * St.
Hypothesis K_Read : Read (methods K) = Some read.
Hypothesis K_Size : Size (methods K) (state K) = Ok 32.
Hypothesis K_digest : forall st b,
  fst (read 32%nat (Write (methods K) b (Reset (methods K) st)))
    = Keccak256 K b.
Hypothesis K_length : forall b, length (Keccak256 K b) = 32%nat.

(** One call [keccak256(seed, seed)] replaces the seed by its digest. *)
Lemma keccak256_seed_seed (st : St) (m : store) :
  length m = 32%nat ->
  exists st',
    hasher_body (methods K) read 32 (Slice 0 32 32) (Slice 0 32 32) (st, m)
      = Ok (st', Keccak256 K m).
Proof.
  intros Hm. rewrite hasher_body_ok by (simpl; lia).
  rewrite view_whole by exact Hm.
  change (Z.to_nat 32) with 32%nat. eexists. f_equal. f_equal.
  rewrite K_digest.
  destruct (blit_full (Slice 0 32 32) (Keccak256 K m) m) as (Hv & Hl & _);
    [rewrite K_length; reflexivity | simpl; lia |].
  rewrite view_whole in Hv by (rewrite Hl; exact Hm). exact Hv.
Qed.

Lemma seedHash_loop_run (k : nat) :
  forall (st : St) (m : store),
    length m = 32%nat ->
    exists st',
      seedHash_loop (hasher_body (methods K) read 32) k (Slice 0 32 32)
        (st, m)
        = Ok (st', Spec.iterate k (Keccak256 K) m).
Proof.
  induction k as [|k IH]; intros st m Hm.
  - exists st. reflexivity.
  - cbn [seedHash_loop].
    destruct (keccak256_seed_seed st m Hm) as (st1 & ->).
    cbn [mbind outcome_bind].
    destruct (IH st1 (Keccak256 K m) (K_length m)) as (st' & ->).
    exists st'. rewrite iterate_shift. reflexivity.
Qed.

Lemma iterate_length (k : nat) (m : store) :
  length m = 32%nat -> length (Spec.iterate k (Keccak256 K) m) = 32%nat.
Proof. intros Hm. destruct k; [exact Hm|apply K_length]. Qed.

Lemma seedHash_before_first_epoch (p : arch) (block epochLength : Z) :
  block < epochLength -> seedHash K p block epochLength = Ok (replicate 32 0).
Proof.
  intros Hlt. unfold seedHash.
  destruct (Z.ltb_spec block epochLength); [reflexivity|lia].
Qed.

Lemma seedHash_chain (p : arch) (block epochLength : Z) :
  0 < epochLength -> epochLength <= block ->
  block / epochLength < 2 ^ (int_bits p - 1) ->
  seedHash K p block epochLength
    = Ok (Spec.iterate (Z.to_nat (block / epochLength)) (Keccak256 K)
            (replicate 32 0)).
Proof.
  intros HL Hge Hsmall. unfold seedHash.
  destruct (Z.ltb_spec block epochLength); [lia|].
  rewrite (makeHasher_returns K read 32 K_Read K_Size).
  cbn [mbind outcome_bind].
  destruct (Z.eqb_spec epochLength 0); [lia|].
  assert (Hq : 0 <= block / epochLength) by (apply Z.div_pos; lia).
  rewrite to_int_small by lia.
  destruct (seedHash_loop_run (Z.to_nat (block / epochLength)) (state K)
              (replicate 32 0) eq_refl) as (st' & ->).
  cbn [mbind outcome_bind]. f_equal.
  apply view_whole, iterate_length. reflexivity.
Qed.

(** With [epochLength = 0] and the hasher made, the division in the loop
    condition panics. *)
Lemma seedHash_zero_epoch (p : arch) (block : Z) :
  0 <= block -> seedHash K p block 0 = Panic "integer divide by zero".
Proof.
  intros Hb. unfold seedHash.
  destruct (Z.ltb_spec block 0); [lia|].
  rewrite (makeHasher_returns K read 32 K_Read K_Size). reflexivity.
Qed.

(** A quotient of [2^(int_bits - 1)] or more, up to [2^int_bits], is
    negative as an [int]: the loop body never runs. *)
Lemma seedHash_int_negative (p : arch) (block epochLength : Z) :
  0 <= block -> 0 < epochLength ->
  2 ^ (int_bits p - 1) <= block / epochLength < 2 ^ int_bits p ->
  seedHash K p block epochLength = Ok (replicate 32 0).
Proof.
  intros Hb HL Hq. unfold seedHash.
  assert (Hle : epochLength <= block).
  { destruct (Z_lt_le_dec block epochLength) as [Hlt|]; [|assumption].
    rewrite Z.div_small in Hq by lia.
    assert (0 < 2 ^ (int_bits p - 1)) by (destruct p; reflexivity). lia. }
  destruct (Z.ltb_spec block epochLength); [lia|].
  rewrite (makeHasher_returns K read 32 K_Read K_Size).
  cbn [mbind outcome_bind].
  destruct (Z.eqb_spec epochLength 0); [lia|].
  assert (Hneg : to_int p (block / epochLength) < 0).
  { unfold to_int. rewrite Z.mod_small by lia.
    destruct (Z.ltb_spec (block / epochLength) (2 ^ (int_bits p - 1)));
      lia. }
  rewrite Z2Nat.nonpos by lia. reflexivity.
Qed.

(** C1 (amended): for 64-bit [block] and [epochLength], [seedHash]
    returns 32 zero bytes when [block < epochLength]; when
    [0 < epochLength <= block] and the quotient [block / epochLength]
    fits Go's [int], it returns the 32 zero bytes after exactly
    [block / epochLength] applications of Keccak-256; so
    [seedHash(n * L, L)] is the digest applied [n] times. *)
Theorem C1_seedHash (p : arch) (block epochLength : Z) :
  is_u64 block -> is_u64 epochLength ->
  (block < epochLength ->
     seedHash K p block epochLength = Ok (replicate 32 0))
  /\ (0 < epochLength -> epochLength <= block ->
      block / epochLength < 2 ^ (int_bits p - 1) ->
      seedHash K p block epochLength
        = Ok (Spec.iterate (Z.to_nat (block / epochLength)) (Keccak256 K)
                (replicate 32 0)))
  /\ (forall n, 0 < epochLength -> 0 <= n < 2 ^ (int_bits p - 1) ->
        is_u64 (n * epochLength) ->
        seedHash K p (n * epochLength) epochLength
          = Ok (Spec.iterate (Z.to_nat n) (Keccak256 K) (replicate 32 0))).
Proof.
  intros _ _. split; [apply seedHash_before_first_epoch|].
  split; [apply seedHash_chain|].
  intros n HL Hn _.
  destruct (Z.eq_dec n 0) as [->|Hn0].
  - rewrite seedHash_before_first_epoch by lia. reflexivity.
  - rewrite seedHash_chain; rewrite ?Z.div_mul by lia; try nia.
    reflexivity.
Qed.

End SeedChain.


(** ** The Keccak-256 object meets what the seed chain relies on *)

Example keccak256_empty :
  hex_value (Keccak256 sha3.NewLegacyKeccak256 [])
  = 0xc5d2460186f7233c927e7db2dcc703c0e500b653ca82273b7bfad8045d85a470.
Proof. vm_compute. reflexivity. Qed.

Example keccak256_fox :
  hex_value (Keccak256 sha3.NewLegacyKeccak256
               [84; 104; 101; 32; 113; 117; 105; 99; 107; 32; 98; 114; 111;
                119; 110; 32; 102; 111; 120; 32; 106; 117; 109; 112; 115; 32;
                111; 118; 101; 114; 32; 116; 104; 101; 32; 108; 97; 122; 121;
                32; 100; 111; 103])
  = 0x4d741b6f1eb29cb2a9b9911c82f56fa8d73b04959d3d9d222895df6c0b28aa15.
Proof. vm_compute. reflexivity. Qed.

Lemma iota_length (rc : Z) (a : list Z) :
  length (Keccak.iota rc a) = length a.
Proof. destruct a; reflexivity. Qed.

Lemma round_length (a : list Z) (rc : Z) : length (Keccak.round a rc) = 25%nat.
Proof.
  unfold Keccak.round, Keccak.chi. rewrite iota_length, length_map.
  reflexivity.
Qed.

Lemma keccak_f_length (a : list Z) : length (Keccak.keccak_f a) = 25%nat.
Proof.
  unfold Keccak.keccak_f, Keccak.round_constants. cbn [foldl].
  apply round_length.
Qed.

Lemma absorb_length (fuel rate : nat) :
  forall (a msg : list Z),
    length a = 25%nat -> length (Keccak.absorb fuel rate a msg) = 25%nat.
Proof.
  induction fuel as [|fuel IH]; intros a msg Ha; [exact Ha|].
  cbn [Keccak.absorb]. destruct msg as [|b msg]; [exact Ha|].
  apply IH. apply keccak_f_length.
Qed.

Lemma state_bytes_length (a : list Z) :
  length (Keccak.state_bytes a) = (8 * length a)%nat.
Proof.
  unfold Keccak.state_bytes. induction a as [|w a IH]; [reflexivity|].
  cbn [flat_map]. rewrite length_app, IH. cbn [Keccak.bytes_of_lane length].
  lia.
Qed.

Lemma sponge_32_length (msg : list Z) :
  length (Keccak.sponge sha3.rate msg 32) = 32%nat.
Proof.
  unfold Keccak.sponge. rewrite length_take.
  change (S (32 / sha3.rate)) with 1%nat. cbn [Keccak.squeeze].
  rewrite length_app, length_take, state_bytes_length.
  rewrite absorb_length by reflexivity.
  unfold sha3.rate. cbn [length]. lia.
Qed.

Lemma sha3_Read_is_Sum (st : sha3.sponge) (b : list Z) :
  fst (sha3.read 32
         (Write (methods sha3.NewLegacyKeccak256) b
            (Reset (methods sha3.NewLegacyKeccak256) st)))
    = Keccak256 sha3.NewLegacyKeccak256 b.
Proof. reflexivity. Qed.

Lemma sha3_Sum_length (b : list Z) :
  length (Keccak256 sha3.NewLegacyKeccak256 b) = 32%nat.
Proof.
  unfold Keccak256. cbn [methods state sha3.NewLegacyKeccak256 Sum Write
    sha3.keccak256_methods app]. unfold sha3.squeeze_from, sha3.outputLen.
  cbn [sha3.squeezed sha3.absorbed drop Nat.add]. apply sponge_32_length.
Qed.

Lemma C1_seedHash_witness :
  seedHash sha3.NewLegacyKeccak256 Arch64 29999 30000 = Ok (replicate 32 0)
  /\ seedHash sha3.NewLegacyKeccak256 Arch64 60000 30000
     = Ok (Spec.iterate (Z.to_nat (60000 / 30000))
             (Keccak256 sha3.NewLegacyKeccak256) (replicate 32 0))
  /\ seedHash sha3.NewLegacyKeccak256 Arch64 (3 * 30000) 30000
     = Ok (Spec.iterate (Z.to_nat 3)
             (Keccak256 sha3.NewLegacyKeccak256) (replicate 32 0)).
Proof.
  assert (H64 : forall x, 0 <= x < 2 ^ 64 -> is_u64 x) by (intros x H; exact H).
  pose proof (fun block Hb =>
    C1_seedHash sha3.NewLegacyKeccak256 sha3.read
      eq_refl eq_refl sha3_Read_is_Sum sha3_Sum_length
      Arch64 block 30000 (H64 block Hb) (H64 30000 ltac:(lia))) as H.
  split; [|split].
  - destruct (H 29999 ltac:(lia)) as (Hzero & _ & _). apply Hzero. lia.
  - destruct (H 60000 ltac:(lia)) as (_ & Hchain & _).
    apply Hchain; [lia | lia | reflexivity].
  - destruct (H 0 ltac:(lia)) as (_ & _ & Hmul).
    apply (Hmul 3); [lia | split; [lia | reflexivity] | unfold is_u64; lia].
Defined.

(** C1 as stated fails at [epochLength = 0]: [block < epochLength] is
    false, and the division in the loop condition panics. *)
Lemma C1_counterexample :
  is_u64 0
  /\ seedHash sha3.NewLegacyKeccak256 Arch64 0 0
     = Panic "integer divide by zero"
  /\ seedHash sha3.NewLegacyKeccak256 Arch32 0 0
     = Panic "integer divide by zero".
Proof. split; [unfold is_u64; lia|]. split; reflexivity. Qed.

(** The seed of the second epoch is the digest of 32 zero bytes. *)
Example seedHash_30000_30000 :
  seedHash sha3.NewLegacyKeccak256 Arch64 30000 30000
    = Ok (Keccak256 sha3.NewLegacyKeccak256 (replicate 32 0))
  /\ hex_value (Keccak256 sha3.NewLegacyKeccak256 (replicate 32 0))
     = 0x290decd9548b62a8d60345a988386fc84ba6bc95484008f6362f93160ef3e563.
Proof. split; vm_compute; reflexivity. Qed.

(** A quotient of [2^63] is negative as a 64-bit [int]: no digest is
    applied. *)
Example seedHash_int_negative_64 :
  seedHash sha3.NewLegacyKeccak256 Arch64 (2 ^ 63) 1 = Ok (replicate 32 0).
Proof. reflexivity. Qed.

(** * Further properties of the integer operators *)

(** Only the low five bits of the count matter. *)
Lemma rotl32_count_mod (a b : Z) : rotl32 a b = rotl32 a (b mod 32).
Proof.
  unfold rotl32. rewrite !sub32_land_31, !land_31, !Z.mod_mod by lia.
  reflexivity.
Qed.

Lemma rotr32_count_mod (a b : Z) : rotr32 a b = rotr32 a (b mod 32).
Proof.
  unfold rotr32. rewrite !sub32_land_31, !land_31, !Z.mod_mod by lia.
  reflexivity.
Qed.

Lemma rotl32_rotr32_small (a k : Z) :
  is_u32 a -> 0 <= k < 32 -> rotl32 (rotr32 a k) k = a.
Proof.
  intros Ha Hk. pose proof (rotr32_u32 a k Ha) as Hr.
  apply Z.bits_inj'. intros i Hi.
  destruct (Z_lt_le_dec i 32) as [Hlt|Hge].
  - rewrite rotl32_testbit by (assumption || lia).
    rewrite rotr32_testbit
      by (assumption || lia || (apply Z.mod_pos_bound; lia)).
    f_equal. rewrite Zplus_mod_idemp_l.
    replace (i - k + k) with i by lia. apply Z.mod_small. lia.
  - rewrite !u32_testbit_high; auto using rotl32_u32.
Qed.

Lemma rotr32_rotl32_small (a k : Z) :
  is_u32 a -> 0 <= k < 32 -> rotr32 (rotl32 a k) k = a.
Proof.
  intros Ha Hk. pose proof (rotl32_u32 a k Ha) as Hl.
  apply Z.bits_inj'. intros i Hi.
  destruct (Z_lt_le_dec i 32) as [Hlt|Hge].
  - rewrite rotr32_testbit by (assumption || lia).
    rewrite rotl32_testbit
      by (assumption || lia || (apply Z.mod_pos_bound; lia)).
    f_equal. rewrite Zminus_mod_idemp_l.
    replace (i + k - k) with i by lia. apply Z.mod_small. lia.
  - rewrite !u32_testbit_high; auto using rotr32_u32.
Qed.

Lemma rotr32_rotl32_any (a b : Z) : is_u32 a -> rotr32 (rotl32 a b) b = a.
Proof.
  intros Ha. rewrite rotr32_count_mod, (rotl32_count_mod a b).
  apply rotr32_rotl32_small; [exact Ha|apply Z.mod_pos_bound; lia].
Qed.

Lemma rotl32_rotr32_any (a b : Z) : is_u32 a -> rotl32 (rotr32 a b) b = a.
Proof.
  intros Ha. rewrite rotl32_count_mod, (rotr32_count_mod a b).
  apply rotl32_rotr32_small; [exact Ha|apply Z.mod_pos_bound; lia].
Qed.

(** X1: on 32-bit values the two rotations undo each other in both
    orders, for every count, also one of 32 or more. *)
Theorem rotations_mutually_inverse (a b : Z) :
  is_u32 a ->
  rotr32 (rotl32 a b) b = a /\ rotl32 (rotr32 a b) b = a.
Proof.
  intros Ha. split; [apply rotr32_rotl32_any | apply rotl32_rotr32_any];
    exact Ha.
Qed.

Lemma rotations_mutually_inverse_witness :
  rotr32 (rotl32 0x80000001 37) 37 = 0x80000001
  /\ rotl32 (rotr32 0x80000001 37) 37 = 0x80000001.
Proof.
  apply (rotations_mutually_inverse 0x80000001 37). unfold is_u32. lia.
Defined.

(** X2: a right rotation by [b] is the left rotation by [32 - b], the
    difference taken as the code takes it, with 32-bit wrap-around. *)
Theorem rotr32_is_rotl32_by_complement (a b : Z) :
  rotr32 a b = rotl32 a (U32.sub 32 b)
  /\ rotl32 a b = rotr32 a (U32.sub 32 b).
Proof.
  unfold rotr32, rotl32.
  rewrite !sub32_land_31, !land_31.
  assert (H : (32 - U32.sub 32 b mod 32) mod 32 = b mod 32).
  { unfold U32.sub, U32.wrap, U32.modulus.
    change (2 ^ 32) with 4294967296. Z.div_mod_to_equations. lia. }
  assert (H' : U32.sub 32 b mod 32 = (32 - b mod 32) mod 32).
  { unfold U32.sub, U32.wrap, U32.modulus.
    change (2 ^ 32) with 4294967296. Z.div_mod_to_equations. lia. }
  rewrite ?H, ?H'. split; reflexivity.
Qed.

Lemma rotl32_rotl32 (a j k : Z) :
  is_u32 a -> rotl32 (rotl32 a j) k = rotl32 a (U32.add j k).
Proof.
  intros Ha.
  rewrite (rotl32_count_mod a j), (rotl32_count_mod _ k),
    (rotl32_count_mod a (U32.add j k)).
  pose proof (Z.mod_pos_bound j 32 eq_refl) as Hj.
  pose proof (Z.mod_pos_bound k 32 eq_refl) as Hk.
  pose proof (Z.mod_pos_bound (U32.add j k) 32 eq_refl) as Hjk.
  pose proof (rotl32_u32 a (j mod 32) Ha) as Hl.
  apply Z.bits_inj'. intros i Hi.
  destruct (Z_lt_le_dec i 32) as [Hlt|Hge].
  - rewrite !rotl32_testbit
      by (assumption || lia || (apply Z.mod_pos_bound; lia)).
    f_equal. unfold U32.add, U32.wrap, U32.modulus.
    change (2 ^ 32) with 4294967296. Z.div_mod_to_equations. lia.
  - rewrite !u32_testbit_high; auto using rotl32_u32.
Qed.

(** X3: two left rotations in a row are one left rotation by the sum of
    the counts, the sum taken with 32-bit wrap-around. *)
Theorem rotl32_compose (a j k : Z) :
  is_u32 a -> rotl32 (rotl32 a j) k = rotl32 a (U32.add j k).
Proof. apply rotl32_rotl32. Qed.

Lemma rotl32_compose_witness :
  rotl32 (rotl32 0xDEADBEEF 30) 7 = rotl32 0xDEADBEEF (U32.add 30 7).
Proof. apply (rotl32_compose 0xDEADBEEF 30 7). unfold is_u32. lia. Defined.

Lemma popcount32_set_bits (a : Z) : popcount32 a = Spec.set_bits 32 a.
Proof. apply popcount32_spec. Qed.

(** Evaluates the closed bit indices [(i - 1) mod 32] of a goal. *)
Ltac eval_bit_indices :=
  repeat match goal with
         | |- context [Z.testbit _ (?e mod 32)] =>
             let v := eval vm_compute in (e mod 32) in
             change (e mod 32) with v
         | |- context [Z.testbit _ (Z.of_nat ?n)] =>
             let v := eval vm_compute in (Z.of_nat n) in
             change (Z.of_nat n) with v
         end.

Lemma popcount32_rotl32_1 (a : Z) :
  is_u32 a -> popcount32 (rotl32 a 1) = popcount32 a.
Proof.
  intros Ha. rewrite !popcount32_set_bits.
  cbn [Spec.set_bits Z.of_nat Pos.of_succ_nat Pos.succ].
  rewrite !rotl32_testbit by (assumption || lia).
  eval_bit_indices. lia.
Qed.

Lemma rotl32_0 (a : Z) : is_u32 a -> rotl32 a 0 = a.
Proof.
  intros Ha. pose proof (rotl32_u32 a 0 Ha) as Hu.
  apply Z.bits_inj'. intros i Hi.
  destruct (Z_lt_le_dec i 32).
  - rewrite rotl32_testbit by (assumption || lia).
    rewrite Z.sub_0_r, Z.mod_small by lia. reflexivity.
  - rewrite !u32_testbit_high by (assumption || lia). reflexivity.
Qed.

Lemma popcount32_rotl32_nat (a : Z) (n : nat) :
  is_u32 a -> popcount32 (rotl32 a (Z.of_nat n)) = popcount32 a.
Proof.
  intros Ha. induction n as [|n IH].
  - change (Z.of_nat 0) with 0. rewrite rotl32_0 by exact Ha. reflexivity.
  - assert (Hstep : rotl32 a (Z.of_nat (S n))
                    = rotl32 (rotl32 a (Z.of_nat n)) 1).
    { rewrite rotl32_rotl32 by exact Ha.
      rewrite (rotl32_count_mod a (Z.of_nat (S n))),
        (rotl32_count_mod a (U32.add _ _)).
      f_equal. unfold U32.add, U32.wrap, U32.modulus.
      rewrite Nat2Z.inj_succ. change (2 ^ 32) with 4294967296.
      Z.div_mod_to_equations. lia. }
    rewrite Hstep, popcount32_rotl32_1 by (apply rotl32_u32; exact Ha).
    exact IH.
Qed.

(** X4: a rotation moves the bits and keeps their number: the population
    count of [rotl32(a, b)] and of [rotr32(a, b)] is that of [a]. *)
Theorem popcount32_rotation (a b : Z) :
  is_u32 a ->
  popcount32 (rotl32 a b) = popcount32 a
  /\ popcount32 (rotr32 a b) = popcount32 a.
Proof.
  intros Ha.
  assert (Hl : forall x c, is_u32 x -> popcount32 (rotl32 x c) = popcount32 x).
  { intros x c Hx. rewrite rotl32_count_mod.
    pose proof (Z.mod_pos_bound c 32 eq_refl) as Hc.
    rewrite <- (Z2Nat.id (c mod 32)) by lia.
    apply popcount32_rotl32_nat. exact Hx. }
  split; [apply Hl; exact Ha|].
  rewrite <- (Hl (rotr32 a b) b) by (apply rotr32_u32; exact Ha).
  rewrite rotl32_rotr32_any by exact Ha. reflexivity.
Qed.

Lemma popcount32_rotation_witness :
  popcount32 (rotl32 0xF000000F 36) = popcount32 0xF000000F
  /\ popcount32 (rotr32 0xF000000F 36) = popcount32 0xF000000F.
Proof. apply (popcount32_rotation 0xF000000F 36). unfold is_u32. lia. Defined.

(** X5: [mul_hi32] and the wrapping product are the two halves of the
    full product; through [randomMath], the results of selectors 2 and 1
    put together give [a * b]. *)
Theorem mul_hi32_mul_full_product (a b s1 s2 : Z) :
  is_u32 a -> is_u32 b -> s1 mod 11 = 1 -> s2 mod 11 = 2 ->
  a * b = mul_hi32 a b * 2 ^ 32 + U32.mul a b
  /\ a * b = randomMath a b s2 * 2 ^ 32 + randomMath a b s1.
Proof.
  intros Ha Hb H1 H2.
  assert (H : a * b = mul_hi32 a b * 2 ^ 32 + U32.mul a b).
  { rewrite mul_hi32_spec by assumption.
    unfold Spec.highWordOfProduct, U32.mul, U32.wrap, U32.modulus.
    pose proof (Z.div_mod (a * b) (2 ^ 32) ltac:(lia)). lia. }
  split; [exact H|].
  unfold randomMath, randomMath_switch, U32.rem. rewrite H1, H2. exact H.
Qed.

Lemma mul_hi32_mul_full_product_witness :
  0xFFFFFFFF * 0xFFFFFFFE
    = mul_hi32 0xFFFFFFFF 0xFFFFFFFE * 2 ^ 32 + U32.mul 0xFFFFFFFF 0xFFFFFFFE
  /\ 0xFFFFFFFF * 0xFFFFFFFE
    = randomMath 0xFFFFFFFF 0xFFFFFFFE 13 * 2 ^ 32
      + randomMath 0xFFFFFFFF 0xFFFFFFFE 12.
Proof.
  apply (mul_hi32_mul_full_product 0xFFFFFFFF 0xFFFFFFFE 12 13);
    unfold is_u32; (lia || reflexivity).
Defined.

(** X6: [clz32] is between 0 and 32, it is 32 exactly for 0, and for a
    non-zero [a] it places the highest set bit:
    [2^(31 - clz32 a) <= a < 2^(32 - clz32 a)]. *)
Theorem clz32_places_highest_bit (a : Z) :
  is_u32 a ->
  0 <= clz32 a <= 32
  /\ (clz32 a = 32 <-> a = 0)
  /\ (0 < a -> 2 ^ (31 - clz32 a) <= a < 2 ^ (32 - clz32 a)).
Proof.
  intros Ha. unfold is_u32 in Ha.
  assert (Hc : clz32 a = 32 - bits.Len32 a).
  { rewrite clz32_spec by exact Ha. unfold Spec.countLeadingZeros.
    rewrite (leading_zeros_len 32 a) by exact Ha. reflexivity. }
  rewrite Hc. unfold bits.Len32.
  destruct (Z.eqb_spec a 0) as [->|Hne].
  - split; [lia|]. split; [split; lia|lia].
  - assert (Hpos : 0 < a) by lia.
    pose proof (Z.log2_spec a Hpos) as Hlog.
    assert (Hlt : Z.log2 a < 32) by (apply Z.log2_lt_pow2; lia).
    pose proof (Z.log2_nonneg a) as Hnn.
    split; [lia|]. split; [split; lia|]. intros _.
    replace (31 - (32 - (Z.log2 a + 1))) with (Z.log2 a) by lia.
    replace (32 - (32 - (Z.log2 a + 1))) with (Z.succ (Z.log2 a)) by lia.
    exact Hlog.
Qed.

Lemma clz32_places_highest_bit_witness :
  0 <= clz32 0x00012345 <= 32
  /\ (clz32 0x00012345 = 32 <-> 0x00012345 = 0)
  /\ (0 < 0x00012345 ->
      2 ^ (31 - clz32 0x00012345) <= 0x00012345
        < 2 ^ (32 - clz32 0x00012345)).
Proof. apply (clz32_places_highest_bit 0x00012345). unfold is_u32. lia. Defined.

Lemma set_bits_complement (n : nat) (a : Z) :
  (n <= 32)%nat ->
  Spec.set_bits n a + Spec.set_bits n (Z.lxor a 0xFFFFFFFF) = Z.of_nat n.
Proof.
  induction n as [|n IH]; intros Hn; [reflexivity|].
  cbn [Spec.set_bits]. rewrite Nat2Z.inj_succ.
  specialize (IH ltac:(lia)).
  rewrite Z.lxor_spec. change 0xFFFFFFFF with (Z.ones 32).
  rewrite Z.testbit_ones_nonneg by lia.
  destruct (Z.ltb_spec (Z.of_nat n) 32); [|lia].
  change (Z.ones 32) with 0xFFFFFFFF in *.
  destruct (Z.testbit a (Z.of_nat n)); cbn [xorb negb Z.b2z]; lia.
Qed.

Lemma set_bits_zero (n : nat) (a : Z) :
  Spec.set_bits n a = 0 ->
  forall i, 0 <= i < Z.of_nat n -> Z.testbit a i = false.
Proof.
  induction n as [|n IH]; intros H i Hi; [lia|].
  cbn [Spec.set_bits] in H. pose proof (set_bits_bound n a) as Hb.
  destruct (Z.testbit a (Z.of_nat n)) eqn:Hbit; cbn [Z.b2z] in H; [lia|].
  destruct (Z.eq_dec i (Z.of_nat n)) as [->|Hne]; [exact Hbit|].
  apply IH; lia.
Qed.

(** X7: the population counts of a 32-bit value and of its complement add
    up to 32, and the count is 0 only for 0. *)
Theorem popcount32_complement (a : Z) :
  is_u32 a ->
  popcount32 a + popcount32 (Z.lxor a 0xFFFFFFFF) = 32
  /\ 0 <= popcount32 a <= 32
  /\ (popcount32 a = 0 <-> a = 0).
Proof.
  intros Ha. rewrite !popcount32_set_bits.
  split; [apply (set_bits_complement 32 a); lia|].
  split; [apply (set_bits_bound 32 a)|].
  split.
  - intros H0. apply Z.bits_inj'. intros i Hi. rewrite Z.bits_0.
    destruct (Z_lt_le_dec i 32).
    + apply (set_bits_zero 32 a H0). lia.
    + apply u32_testbit_high; assumption.
  - intros ->. reflexivity.
Qed.

Lemma popcount32_complement_witness :
  popcount32 0x0F0F0001 + popcount32 (Z.lxor 0x0F0F0001 0xFFFFFFFF) = 32
  /\ 0 <= popcount32 0x0F0F0001 <= 32
  /\ (popcount32 0x0F0F0001 = 0 <-> 0x0F0F0001 = 0).
Proof. apply (popcount32_complement 0x0F0F0001). unfold is_u32. lia. Defined.

Lemma minUint32_max_bounds (a b : Z) :
  minUint32 a b <= a /\ minUint32 a b <= b
  /\ a <= max a b /\ b <= max a b
  /\ minUint32 a b + max a b = a + b.
Proof. unfold minUint32, max. destruct (Z.gtb_spec a b); lia. Qed.

(** * Further properties of the FNV functions and the KawPow operators *)

Lemma land_u32 (x y : Z) : is_u32 x -> is_u32 y -> is_u32 (Z.land x y).
Proof.
  intros Hx Hy. apply u32_of_bits.
  - apply Z.land_nonneg. unfold is_u32 in *. lia.
  - intros i Hi. rewrite Z.land_spec, !u32_testbit_high by assumption.
    reflexivity.
Qed.

Lemma lxor_u32 (x y : Z) : is_u32 x -> is_u32 y -> is_u32 (Z.lxor x y).
Proof.
  intros Hx Hy. apply u32_of_bits.
  - apply Z.lxor_nonneg. unfold is_u32 in *. lia.
  - intros i Hi. rewrite Z.lxor_spec, !u32_testbit_high by assumption.
    reflexivity.
Qed.

Lemma lxor_cancel_r (x y v : Z) : Z.lxor x v = Z.lxor y v -> x = y.
Proof.
  intros H. apply (f_equal (fun z => Z.lxor z v)) in H.
  rewrite !Z.lxor_assoc, Z.lxor_nilpotent, !Z.lxor_0_r in H. exact H.
Qed.

Lemma lxor_cancel_l (u x y : Z) : Z.lxor u x = Z.lxor u y -> x = y.
Proof. rewrite !(Z.lxor_comm u). apply lxor_cancel_r. Qed.

(** Multiplying by an odd constant [c] with inverse [c'] modulo [2^32]
    loses nothing. *)
Lemma mul_odd_injective (c c' x y : Z) :
  (c * c') mod 2 ^ 32 = 1 ->
  is_u32 x -> is_u32 y -> U32.mul x c = U32.mul y c -> x = y.
Proof.
  unfold U32.mul, U32.wrap, U32.modulus, is_u32. intros Hc Hx Hy H.
  assert (Hinv : forall z, ((z * c) mod 2 ^ 32 * c') mod 2 ^ 32 = z mod 2 ^ 32).
  { intros z. rewrite Z.mul_mod_idemp_l by lia.
    rewrite <- Z.mul_assoc, <- Z.mul_mod_idemp_r, Hc, Z.mul_1_r by lia.
    reflexivity. }
  pose proof (Hinv x) as Hx'. pose proof (Hinv y) as Hy'.
  rewrite H in Hx'. rewrite Hx' in Hy'.
  rewrite !Z.mod_small in Hy' by lia. exact Hy'.
Qed.

(** X8: for 32-bit words the FNV steps lose nothing and stay within 32
    bits: [fnv1] and [fnv1a] are injective in the running value [u] for a
    fixed data word [v], and [fnv1] is injective in [v]. *)
Theorem fnv_steps_injective (u u' v v' : Z) :
  is_u32 u -> is_u32 u' -> is_u32 v -> is_u32 v' ->
  (fnv1 u v = fnv1 u' v -> u = u')
  /\ (fnv1 u v = fnv1 u v' -> v = v')
  /\ (fnv1a u v = fnv1a u' v -> u = u')
  /\ is_u32 (fnv1 u v) /\ is_u32 (fnv1a u v).
Proof.
  intros Hu Hu' Hv Hv'.
  assert (Hinv : (FNV_PRIME * FNV_PRIME_inverse) mod 2 ^ 32 = 1)
    by reflexivity.
  split; [|split; [|split; [|split]]].
  - unfold fnv1. intros H. apply lxor_cancel_r in H.
    exact (mul_odd_injective _ _ u u' Hinv Hu Hu' H).
  - unfold fnv1. apply lxor_cancel_l.
  - unfold fnv1a. intros H.
    apply (mul_odd_injective _ _ _ _ Hinv) in H; auto using lxor_u32.
    exact (lxor_cancel_r _ _ _ H).
  - unfold fnv1. apply lxor_u32; [apply wrap_u32|exact Hv].
  - unfold fnv1a. apply wrap_u32.
Qed.

Lemma fnv_steps_injective_witness :
  (fnv1 7 9 = fnv1 7 9 -> 7 = 7)
  /\ (fnv1 7 9 = fnv1 7 9 -> 9 = 9)
  /\ (fnv1a 7 9 = fnv1a 7 9 -> 7 = 7)
  /\ is_u32 (fnv1 7 9) /\ is_u32 (fnv1a 7 9).
Proof. apply (fnv_steps_injective 7 7 9 9); unfold is_u32; lia. Defined.

(** X9: [randomMath] of 32-bit operands is a 32-bit value, whatever the
    selector. *)
Theorem randomMath_in_range (a b selector : Z) :
  is_u32 a -> is_u32 b -> is_u32 (randomMath a b selector).
Proof.
  intros Ha Hb. unfold randomMath, randomMath_switch, U32.rem.
  pose proof (mod11_cases selector) as H. cbv zeta in H.
  on_cases H; rewrite H; unfold U32.add, U32.mul, mul_hi32;
    auto using wrap_u32, rotl32_u32, rotr32_u32, land_u32, lor_u32, lxor_u32.
  unfold minUint32. destruct (a >? b); assumption.
Qed.

Lemma randomMath_in_range_witness :
  is_u32 (randomMath 0xFFFFFFFF 0xFFFFFFFF 1).
Proof. apply (randomMath_in_range 0xFFFFFFFF 0xFFFFFFFF 1); unfold is_u32; lia. Defined.

(** X10: [randomMerge] of 32-bit operands is a 32-bit value, whatever the
    selector. *)
Theorem randomMerge_in_range (a b selector : Z) :
  is_u32 a -> is_u32 b -> is_u32 (randomMerge a b selector).
Proof.
  intros Ha Hb. unfold randomMerge, randomMerge_switch, U32.rem.
  pose proof (mod4_cases selector) as H. cbv zeta in H.
  on_cases H; rewrite H; unfold U32.add, U32.mul;
    auto using wrap_u32, rotl32_u32, rotr32_u32, lxor_u32.
Qed.

Lemma randomMerge_in_range_witness :
  is_u32 (randomMerge 0xFFFFFFFF 0xFFFFFFFF 0x00030002).
Proof.
  apply (randomMerge_in_range 0xFFFFFFFF 0xFFFFFFFF 0x00030002);
    unfold is_u32; lia.
Defined.

(** X11: except for the two rotations (selector mod 11 equal to 4 or 5),
    [randomMath] does not depend on the order of its operands. *)
Theorem randomMath_commutes (a b selector : Z) :
  selector mod 11 <> 4 -> selector mod 11 <> 5 ->
  randomMath a b selector = randomMath b a selector.
Proof.
  intros H4 H5. unfold randomMath, randomMath_switch, U32.rem.
  pose proof (mod11_cases selector) as H. cbv zeta in H.
  on_cases H; rewrite H in *; try congruence.
  - unfold U32.add. rewrite Z.add_comm. reflexivity.
  - unfold U32.mul. rewrite Z.mul_comm. reflexivity.
  - unfold mul_hi32, U64.mul. rewrite Z.mul_comm. reflexivity.
  - rewrite !minUint32_spec. apply Z.min_comm.
  - apply Z.land_comm.
  - apply Z.lor_comm.
  - apply Z.lxor_comm.
  - unfold U32.add. rewrite Z.add_comm. reflexivity.
  - unfold U32.add. rewrite Z.add_comm. reflexivity.
Qed.

Lemma randomMath_commutes_witness :
  randomMath 0x12345678 0x9ABCDEF0 13 = randomMath 0x9ABCDEF0 0x12345678 13.
Proof.
  apply (randomMath_commutes 0x12345678 0x9ABCDEF0 13);
    vm_compute; discriminate.
Defined.

(** X12: [randomMerge] keeps what its first operand holds: for a fixed
    second operand and selector, two 32-bit values of [a] that give the
    same result are equal. *)
Theorem randomMerge_injective (a a' b selector : Z) :
  is_u32 a -> is_u32 a' -> is_u32 b ->
  randomMerge a b selector = randomMerge a' b selector -> a = a'.
Proof.
  intros Ha Ha' Hb. unfold randomMerge, randomMerge_switch, U32.rem.
  assert (H33 : (33 * 0x3e0f83e1) mod 2 ^ 32 = 1) by reflexivity.
  pose proof (mod4_cases selector) as H. cbv zeta in H.
  on_cases H; rewrite H; intros Heq.
  - apply (mul_odd_injective _ _ a a' H33 Ha Ha').
    pose proof (wrap_u32 (a * 33)) as H1.
    pose proof (wrap_u32 (a' * 33)) as H2.
    revert Heq H1 H2. unfold U32.add, U32.mul, U32.wrap, U32.modulus, is_u32.
    generalize ((a * 33) mod 2 ^ 32) ((a' * 33) mod 2 ^ 32).
    intros x y Heq Hx Hy. unfold is_u32 in Hb.
    change (2 ^ 32) with 4294967296 in *.
    Z.div_mod_to_equations. lia.
  - apply (mul_odd_injective _ _ _ _ H33) in Heq; auto using lxor_u32.
    exact (lxor_cancel_r _ _ _ Heq).
  - apply lxor_cancel_r in Heq.
    rewrite <- (rotr32_rotl32_any a (randomMerge_x selector) Ha).
    rewrite <- (rotr32_rotl32_any a' (randomMerge_x selector) Ha').
    rewrite Heq. reflexivity.
  - apply lxor_cancel_r in Heq.
    rewrite <- (rotl32_rotr32_any a (randomMerge_x selector) Ha).
    rewrite <- (rotl32_rotr32_any a' (randomMerge_x selector) Ha').
    rewrite Heq. reflexivity.
Qed.

Lemma randomMerge_injective_witness : 5 = 5.
Proof.
  apply (randomMerge_injective 5 5 9 0x00070002);
    [unfold is_u32; lia | unfold is_u32; lia | unfold is_u32; lia
    | reflexivity].
Defined.

(** * Further properties of the FNV mixer *)

Lemma fnvHash_loop_short_data (mix data : slice) (n : nat) :
  forall (i : nat) (m : mem),
    (i + n = len mix)%nat ->
    (i <= len data < len mix)%nat ->
    (off mix + len mix <= length (cells m))%nat ->
    (off data + len data <= length (cells m))%nat ->
    fnvHash_loop n i mix data m = Panic "index out of range".
Proof.
  induction n as [|n IH]; intros i m Hin Hlen Hmix Hdata; [lia|].
  cbn [fnvHash_loop]. rewrite load_ok by lia. cbn [mbind outcome_bind].
  destruct (decide (i = len data)) as [->|Hne].
  - unfold load. cbn [cells].
    destruct (decide (len data < len data)%nat); [lia|]. reflexivity.
  - rewrite load_ok by (cbn [cells]; lia). cbn [mbind outcome_bind cells log].
    rewrite assign_ok by (cbn [cells]; lia). cbn [mbind outcome_bind].
    apply IH; cbn [cells]; rewrite ?length_insert; lia.
Qed.

(** X13: with a [data] shorter than [mix] the call panics with an index
    out of range. *)
Theorem fnvHash_short_data_panics (mix data : slice) (m : mem) :
  slice_wf (cells m) mix -> slice_wf (cells m) data ->
  (len data < len mix)%nat ->
  fnvHash mix data m = Panic "index out of range".
Proof.
  intros [Hm1 Hm2] [Hd1 Hd2] Hlen. unfold fnvHash.
  apply fnvHash_loop_short_data; lia.
Qed.

Lemma fnvHash_short_data_panics_witness :
  fnvHash (Slice 0 3 3) (Slice 3 2 2) (Mem [1; 2; 3; 4; 5] [])
    = Panic "index out of range".
Proof.
  apply (fnvHash_short_data_panics (Slice 0 3 3) (Slice 3 2 2)
           (Mem [1; 2; 3; 4; 5] [])).
  - unfold slice_wf; simpl; lia.
  - unfold slice_wf; simpl; lia.
  - simpl; lia.
Defined.

Lemma load_value (s : slice) (i : nat) (m m1 : mem) (v : Z) :
  load s i m = Ok (v, m1) -> cells m1 = cells m /\ v ∈ cells m.
Proof.
  unfold load. destruct (decide (i < len s)%nat); [|discriminate].
  destruct (cells m !! (off s + i)%nat) as [w|] eqn:Hw; [|discriminate].
  intros H. inversion H; subst. split; [reflexivity|].
  apply list_elem_of_lookup. eauto.
Qed.

Lemma fnvHash_loop_u32 (mix data : slice) (n : nat) :
  forall (i : nat) (m m' : mem),
    Forall is_u32 (cells m) ->
    fnvHash_loop n i mix data m = Ok m' ->
    Forall is_u32 (cells m').
Proof.
  induction n as [|n IH]; intros i m m' Hall Hrun.
  - cbn [fnvHash_loop] in Hrun. inversion Hrun; subst. exact Hall.
  - cbn [fnvHash_loop] in Hrun.
    destruct (load mix i m) as [[u m1]|] eqn:H1; [|discriminate].
    cbn [mbind outcome_bind] in Hrun.
    destruct (load data i m1) as [[v m2]|] eqn:H2; [|discriminate].
    cbn [mbind outcome_bind] in Hrun.
    destruct (assign mix i (fnv1 u v) m2) as [m3|] eqn:H3; [|discriminate].
    cbn [mbind outcome_bind] in Hrun.
    apply load_value in H1 as [Hc1 Hu]. apply load_value in H2 as [Hc2 Hv].
    rewrite Hc1 in Hc2, Hv. 
    apply (IH (S i) m3 m'); [|exact Hrun].
    unfold assign in H3.
    destruct (decide (i < len mix)%nat); [|discriminate].
    destruct (decide (off mix + i < length (cells m2))%nat); [|discriminate].
    inversion H3; subst. cbn [cells]. rewrite Hc2.
    apply Forall_insert; [exact Hall|].
    rewrite Forall_forall in Hall.
    unfold fnv1. apply lxor_u32; [apply wrap_u32|]. apply Hall. exact Hv.
Qed.

(** X14: the mixer keeps words within 32 bits: on a store of 32-bit words
    and with [len(data) >= len(mix)] the call returns a store of the same
    size whose cells are all 32-bit words. *)
Theorem fnvHash_keeps_u32 (mix data : slice) (m : mem) :
  slice_wf (cells m) mix -> slice_wf (cells m) data ->
  (len mix <= len data)%nat ->
  Forall is_u32 (cells m) ->
  exists m',
    fnvHash mix data m = Ok m'
    /\ length (cells m') = length (cells m)
    /\ Forall is_u32 (cells m').
Proof.
  intros [Hm1 Hm2] [Hd1 Hd2] Hlen Hall.
  destruct (fnvHash_loop_run mix data (len mix) 0 m)
    as (m' & Hrun & Hsz & _); try lia.
  exists m'. split; [exact Hrun|]. split; [exact Hsz|].
  exact (fnvHash_loop_u32 mix data (len mix) 0 m m' Hall Hrun).
Qed.

Lemma fnvHash_keeps_u32_witness :
  exists m',
    fnvHash (Slice 0 2 2) (Slice 1 3 3)
      (Mem [0xFFFFFFFF; 0xFFFFFFFE; 3; 4] []) = Ok m'
    /\ length (cells m') = 4%nat
    /\ Forall is_u32 (cells m').
Proof.
  apply (fnvHash_keeps_u32 (Slice 0 2 2) (Slice 1 3 3)
           (Mem [0xFFFFFFFF; 0xFFFFFFFE; 3; 4] [])).
  - unfold slice_wf; simpl; lia.
  - unfold slice_wf; simpl; lia.
  - simpl; lia.
  - repeat constructor; unfold is_u32; lia.
Defined.

(** * Further properties of the byte utilities *)

Lemma byte_testbit_out (b j : Z) :
  is_byte b -> j < 0 \/ 8 <= j -> Z.testbit b j = false.
Proof.
  intros Hb [Hj|Hj]; [apply Z.testbit_neg_r; exact Hj|].
  rewrite <- (Z.mod_small b (2 ^ 8)) by exact Hb.
  apply Z.mod_pow2_bits_high. lia.
Qed.

Lemma byte_of_bits (b x : Z) :
  is_byte b ->
  (forall i, 0 <= i < 8 -> Z.testbit x i = Z.testbit b i) ->
  byte_of x = b.
Proof.
  intros Hb H. apply Z.bits_inj'. intros i Hi.
  rewrite byte_of_testbit by exact Hi.
  destruct (Z.ltb_spec i 8).
  - cbn [andb]. apply H. lia.
  - cbn [andb]. symmetry. apply byte_testbit_out; [exact Hb|lia].
Qed.

(** Bit [j] of the word made of four bytes, least significant first. *)
Lemma le_word_testbit (b0 b1 b2 b3 j : Z) :
  0 <= j ->
  Z.testbit
    (Z.lor (Z.lor (Z.lor b0 (Z.shiftl b1 8)) (Z.shiftl b2 16))
       (Z.shiftl b3 24)) j
  = Z.testbit b0 j || Z.testbit b1 (j - 8) || Z.testbit b2 (j - 16)
    || Z.testbit b3 (j - 24).
Proof.
  intros Hj. rewrite !Z.lor_spec, !Z.shiftl_spec by exact Hj. reflexivity.
Qed.

Ltac byte_bits :=
  intros i Hi; rewrite ?Z.shiftr_spec by lia;
  rewrite le_word_testbit by lia;
  repeat match goal with
         | Hb : is_byte ?b |- context [Z.testbit ?b ?j] =>
             rewrite (byte_testbit_out b j Hb) by lia
         end;
  rewrite ?orb_false_r, ?orb_false_l; f_equal; lia.

Lemma le_word_bytes (b0 b1 b2 b3 : Z) :
  is_byte b0 -> is_byte b1 -> is_byte b2 -> is_byte b3 ->
  let v := Z.lor (Z.lor (Z.lor b0 (Z.shiftl b1 8)) (Z.shiftl b2 16))
             (Z.shiftl b3 24) in
  byte_of v = b0 /\ byte_of (Z.shiftr v 8) = b1
  /\ byte_of (Z.shiftr v 16) = b2 /\ byte_of (Z.shiftr v 24) = b3.
Proof.
  intros H0 H1 H2 H3 v. subst v.
  repeat split; apply byte_of_bits; try assumption; byte_bits.
Qed.

Lemma swap_loop_groups (n : nat) :
  forall (pre rest : list Z),
    length rest = (4 * n)%nat -> Forall is_byte rest ->
    swap_loop n (length pre) (pre ++ rest) = Ok (pre ++ rev_groups rest).
Proof.
  induction n as [|n IH]; intros pre rest Hlen Hall.
  - destruct rest; [reflexivity|discriminate].
  - destruct rest as [|b0 [|b1 [|b2 [|b3 rest]]]]; try (cbn in Hlen; lia).
    inversion Hall as [|? ? H0 Hall1]; subst.
    inversion Hall1 as [|? ? H1 Hall2]; subst.
    inversion Hall2 as [|? ? H2 Hall3]; subst.
    inversion Hall3 as [|? ? H3 Hall4]; subst.
    cbn [swap_loop]. unfold slice_from.
    destruct (decide (length pre <= length (pre ++ b0 :: b1 :: b2 :: b3 :: rest))%nat)
      as [_|Hn]; [|rewrite length_app in Hn; lia].
    cbn [mbind outcome_bind]. rewrite drop_app_length.
    cbn [binary.Uint32 mbind outcome_bind]. unfold binary.PutUint32.
    destruct (decide (3 < length (b0 :: b1 :: b2 :: b3 :: rest))%nat)
      as [_|Hn]; [|cbn [length] in Hn; lia].
    cbn [mbind outcome_bind bytes_in_order drop].
    destruct (le_word_bytes b0 b1 b2 b3 H0 H1 H2 H3) as (E0 & E1 & E2 & E3).
    cbv zeta in E0, E1, E2, E3. rewrite E0, E1, E2, E3.
    rewrite take_app_length.
    specialize (IH (pre ++ [b3; b2; b1; b0]) rest).
    rewrite length_app in IH. cbn [length] in IH, Hlen.
    rewrite <- !app_assoc in IH. cbn [app] in IH |- *.
    rewrite drop_0.
    rewrite IH by (lia || assumption).
    cbn [rev_groups]. reflexivity.
Qed.

Lemma rev_groups_length (n : nat) :
  forall buf, length buf = (4 * n)%nat -> length (rev_groups buf) = length buf.
Proof.
  induction n as [|n IH]; intros buf Hlen.
  - destruct buf; [reflexivity|discriminate].
  - destruct buf as [|b0 [|b1 [|b2 [|b3 rest]]]]; try (cbn in Hlen; lia).
    cbn [rev_groups length] in *. rewrite IH by lia. reflexivity.
Qed.

Lemma rev_groups_involutive (n : nat) :
  forall buf, length buf = (4 * n)%nat -> rev_groups (rev_groups buf) = buf.
Proof.
  induction n as [|n IH]; intros buf Hlen.
  - destruct buf; [reflexivity|discriminate].
  - destruct buf as [|b0 [|b1 [|b2 [|b3 rest]]]]; try (cbn in Hlen; lia).
    cbn [rev_groups length] in *. rewrite IH by lia. reflexivity.
Qed.

Lemma rev_groups_bytes (n : nat) :
  forall buf, length buf = (4 * n)%nat -> Forall is_byte buf ->
    Forall is_byte (rev_groups buf).
Proof.
  induction n as [|n IH]; intros buf Hlen Hall.
  - destruct buf; [constructor|discriminate].
  - destruct buf as [|b0 [|b1 [|b2 [|b3 rest]]]]; try (cbn in Hlen; lia).
    inversion Hall as [|? ? H0 Hall1]; subst.
    inversion Hall1 as [|? ? H1 Hall2]; subst.
    inversion Hall2 as [|? ? H2 Hall3]; subst.
    inversion Hall3 as [|? ? H3 Hall4]; subst.
    cbn [rev_groups length] in *.
    do 4 (constructor; [assumption|]).
    apply IH; [lia|assumption].
Qed.

Lemma swap_rounds (n : nat) : ((4 * n + 3) / 4 = n)%nat.
Proof.
  symmetry. apply (Nat.div_unique (4 * n + 3) 4 n 3); lia.
Qed.

Lemma swap_groups (n : nat) (buffer : list Z) :
  length buffer = (4 * n)%nat -> Forall is_byte buffer ->
  swap buffer = Ok (rev_groups buffer).
Proof.
  intros Hlen Hall. unfold swap. rewrite Hlen, swap_rounds.
  exact (swap_loop_groups n [] buffer Hlen Hall).
Qed.

Lemma swap_reverses_groups_aux (n : nat) (buffer : list Z) :
  length buffer = (4 * n)%nat -> Forall is_byte buffer ->
  swap buffer = Ok (rev_groups buffer)
  /\ length (rev_groups buffer) = length buffer
  /\ swap (rev_groups buffer) = Ok buffer.
Proof.
  intros Hlen Hall. split; [exact (swap_groups n buffer Hlen Hall)|].
  pose proof (rev_groups_length n buffer Hlen) as Hl.
  split; [exact Hl|].
  rewrite (swap_groups n (rev_groups buffer));
    [|lia|exact (rev_groups_bytes n buffer Hlen Hall)].
  rewrite (rev_groups_involutive n buffer Hlen). reflexivity.
Qed.

(** X15: on a buffer of bytes whose length is a multiple of four, [swap]
    returns the buffer with every group of four bytes reversed and the
    length unchanged; swapping twice gives the buffer back. *)
Theorem swap_reverses_groups (n : nat) (buffer : list Z) :
  length buffer = (4 * n)%nat -> Forall is_byte buffer ->
  swap buffer = Ok (rev_groups buffer)
  /\ length (rev_groups buffer) = length buffer
  /\ swap (rev_groups buffer) = Ok buffer.
Proof. exact (swap_reverses_groups_aux n buffer). Qed.

Lemma swap_reverses_groups_witness :
  swap [1; 2; 3; 4; 5; 6; 7; 255] = Ok (rev_groups [1; 2; 3; 4; 5; 6; 7; 255])
  /\ length (rev_groups [1; 2; 3; 4; 5; 6; 7; 255])
     = length [1; 2; 3; 4; 5; 6; 7; 255]
  /\ swap (rev_groups [1; 2; 3; 4; 5; 6; 7; 255])
     = Ok [1; 2; 3; 4; 5; 6; 7; 255].
Proof.
  apply (swap_reverses_groups 2 [1; 2; 3; 4; 5; 6; 7; 255]).
  - reflexivity.
  - repeat constructor; unfold is_byte; lia.
Defined.

Lemma swap_loop_partial (n : nat) :
  forall (pre rest : list Z) (r : nat),
    length rest = (4 * n + r)%nat -> (0 < r < 4)%nat ->
    swap_loop (S n) (length pre) (pre ++ rest) = Panic "index out of range".
Proof.
  induction n as [|n IH]; intros pre rest r Hlen Hr.
  - cbn [swap_loop]. unfold slice_from.
    destruct (decide (length pre <= length (pre ++ rest))%nat)
      as [_|Hn]; [|rewrite length_app in Hn; lia].
    cbn [mbind outcome_bind]. rewrite drop_app_length.
    destruct rest as [|b0 [|b1 [|b2 [|b3 rest]]]]; try reflexivity.
    cbn [length] in Hlen. lia.
  - destruct rest as [|b0 [|b1 [|b2 [|b3 rest]]]]; try (cbn in Hlen; lia).
    remember (S n) as k eqn:Hk. cbn [swap_loop]. unfold slice_from.
    destruct (decide (length pre <= length (pre ++ b0 :: b1 :: b2 :: b3 :: rest))%nat)
      as [_|Hn]; [|rewrite length_app in Hn; lia].
    cbn [mbind outcome_bind]. rewrite drop_app_length.
    cbn [binary.Uint32 mbind outcome_bind]. unfold binary.PutUint32.
    destruct (decide (3 < length (b0 :: b1 :: b2 :: b3 :: rest))%nat)
      as [_|Hn]; [|cbn [length] in Hn; lia].
    cbn [mbind outcome_bind bytes_in_order drop app]. rewrite drop_0.
    rewrite take_app_length. subst k.
    match goal with
    | |- swap_loop _ _ (pre ++ ?x3 :: ?x2 :: ?x1 :: ?x0 :: rest) = _ =>
        specialize (IH (pre ++ [x3; x2; x1; x0]) rest r)
    end.
    rewrite length_app in IH. cbn [length] in IH, Hlen.
    rewrite <- !app_assoc in IH. cbn [app] in IH.
    apply IH; lia.
Qed.

(** X16: on a buffer whose length is not a multiple of four, [swap]
    panics with an index out of range. *)
Theorem swap_partial_group_panics (buffer : list Z) :
  (length buffer mod 4 <> 0)%nat ->
  swap buffer = Panic "index out of range".
Proof.
  intros Hr. unfold swap.
  pose proof (Nat.div_mod_eq (length buffer) 4) as Hdm.
  pose proof (Nat.mod_upper_bound (length buffer) 4 ltac:(lia)) as Hub.
  set (n := (length buffer / 4)%nat) in *.
  set (r := (length buffer mod 4)%nat) in *.
  assert (Hrounds : ((length buffer + 3) / 4 = S n)%nat).
  { symmetry. apply (Nat.div_unique (length buffer + 3) 4 (S n) (r - 1)); lia. }
  rewrite Hrounds.
  exact (swap_loop_partial n [] buffer r Hdm ltac:(lia)).
Qed.

Lemma swap_partial_group_panics_witness :
  swap [1; 2; 3; 4; 5; 6] = Panic "index out of range".
Proof.
  apply (swap_partial_group_panics [1; 2; 3; 4; 5; 6]).
  vm_compute. discriminate.
Defined.






(** * Further properties of the hash utilities *)

Section ReusableHasher.

Context {St : Type}.

(** A hash object with a [Read] method whose digest has [size] bytes, as
    the Keccak-256 and Keccak-512 objects of the [sha3] package are: a
    [Read] of [size] bytes after [Reset] and [Write] gives what [Sum]
    gives on a new object. *)
Variable K : HashObj St.
Variable read : nat -> St -> list Z * St.
Variable size : nat.
Hypothesis K_Read : Read (methods K) = Some read.
Hypothesis K_Size : Size (methods K) (state K) = Ok (Z.of_nat size).
Hypothesis K_digest : forall st b,
  fst (read size (Write (methods K) b (Reset (methods K) st)))
    = Sum (methods K) [] (Write (methods K) b (state K)).
Hypothesis K_length : forall b,
  length (Sum (methods K) [] (Write (methods K) b (state K))) = size.

(** A call of the function [makeHasher] returns, on a [dest] with room
    for the digest. *)
Lemma hasher_one_shot (dest data : slice) (st : St) (m : store) :
  (size <= cap dest)%nat -> (off dest + cap dest <= length m)%nat ->
  exists f st' m',
    makeHasher (Some K) = Ok f
    /\ f dest data (st, m) = Ok (st', m')
    /\ view (Slice (off dest) size (cap dest)) m'
       = Sum (methods K) [] (Write (methods K) (view data m) (state K))
    /\ length m' = length m
    /\ (forall addr, ~ (off dest <= addr < off dest + size)%nat ->
          m' !! addr = m !! addr).
Proof.
  intros Hcap Hm.
  set (absorbed := Write (methods K) (view data m) (Reset (methods K) st)).
  set (window := Slice (off dest) size (cap dest)).
  exists (hasher_body (methods K) read (Z.of_nat size)),
         (snd (read size absorbed)),
         (blit window (fst (read size absorbed)) m).
  split; [exact (makeHasher_returns K read _ K_Read K_Size)|].
  split.
  { rewrite hasher_body_ok by lia. rewrite Nat2Z.id. reflexivity. }
  subst absorbed. rewrite K_digest.
  destruct (blit_full window
              (Sum (methods K) [] (Write (methods K) (view data m) (state K)))
              m) as (Hv & Hl & Hf);
    [rewrite K_length; reflexivity | subst window; cbn [off len]; lia |].
  split; [exact Hv|]. split; [exact Hl|].
  intros addr Haddr. apply Hf. exact Haddr.
Qed.

End ReusableHasher.

(** X18: the function [makeHasher] returns for the Keccak-256 object
    computes [Keccak256] of what [data] holds when it is called, whatever
    the object absorbed or gave out before, and also when [data] and
    [dest] share cells; it writes the 32 bytes to the start of [dest] and
    changes no other cell. *)
Theorem keccak256_hasher_is_Keccak256 {St} (K : HashObj St)
    (read : nat -> St -> list Z * St) (dest data : slice) (st : St)
    (m : store) :
  Read (methods K) = Some read ->
  Size (methods K) (state K) = Ok 32 ->
  (forall st b,
     fst (read 32%nat (Write (methods K) b (Reset (methods K) st)))
       = Keccak256 K b) ->
  (forall b, length (Keccak256 K b) = 32%nat) ->
  (32 <= cap dest)%nat -> (off dest + cap dest <= length m)%nat ->
  exists f st' m',
    makeHasher (Some K) = Ok f
    /\ f dest data (st, m) = Ok (st', m')
    /\ view (Slice (off dest) 32 (cap dest)) m' = Keccak256 K (view data m)
    /\ length m' = length m
    /\ (forall addr, ~ (off dest <= addr < off dest + 32)%nat ->
          m' !! addr = m !! addr).
Proof.
  intros HRead HSize Hdigest Hlength.
  exact (hasher_one_shot K read 32 HRead HSize Hdigest Hlength dest data st m).
Qed.

Lemma keccak256_hasher_is_Keccak256_witness :
  exists f st' m',
    makeHasher (Some sha3.NewLegacyKeccak256) = Ok f
    /\ f (Slice 2 32 38) (Slice 0 8 40) (sha3.State [1; 2; 3] 17,
                                         replicate 40 5)
       = Ok (st', m')
    /\ view (Slice 2 32 38) m'
       = Keccak256 sha3.NewLegacyKeccak256
           (view (Slice 0 8 40) (replicate 40 5))
    /\ length m' = length (replicate 40 5)
    /\ (forall addr, ~ (2 <= addr < 2 + 32)%nat ->
          m' !! addr = replicate 40 5 !! addr).
Proof.
  apply (keccak256_hasher_is_Keccak256 sha3.NewLegacyKeccak256 sha3.read
           (Slice 2 32 38) (Slice 0 8 40) (sha3.State [1; 2; 3] 17)
           (replicate 40 5) eq_refl eq_refl
           sha3_Read_is_Sum sha3_Sum_length).
  - simpl; lia.
  - simpl; lia.
Defined.

(** X19: the same for the Keccak-512 object and [Keccak512], with 64
    bytes. *)
Theorem keccak512_hasher_is_Keccak512 {St} (K : HashObj St)
    (read : nat -> St -> list Z * St) (dest data : slice) (st : St)
    (m : store) :
  Read (methods K) = Some read ->
  Size (methods K) (state K) = Ok 64 ->
  (forall st b,
     fst (read 64%nat (Write (methods K) b (Reset (methods K) st)))
       = Keccak512 K b) ->
  (forall b, length (Keccak512 K b) = 64%nat) ->
  (64 <= cap dest)%nat -> (off dest + cap dest <= length m)%nat ->
  exists f st' m',
    makeHasher (Some K) = Ok f
    /\ f dest data (st, m) = Ok (st', m')
    /\ view (Slice (off dest) 64 (cap dest)) m' = Keccak512 K (view data m)
    /\ length m' = length m
    /\ (forall addr, ~ (off dest <= addr < off dest + 64)%nat ->
          m' !! addr = m !! addr).
Proof.
  intros HRead HSize Hdigest Hlength.
  exact (hasher_one_shot K read 64 HRead HSize Hdigest Hlength dest data st m).
Qed.

Lemma sponge_64_length (msg : list Z) :
  length (Keccak.sponge sha3_512.rate msg 64) = 64%nat.
Proof.
  unfold Keccak.sponge. rewrite length_take.
  change (S (64 / sha3_512.rate)) with 1%nat. cbn [Keccak.squeeze].
  rewrite length_app, length_take, state_bytes_length.
  rewrite absorb_length by reflexivity.
  unfold sha3_512.rate. cbn [length]. lia.
Qed.

Lemma sha3_512_Sum_length (b : list Z) :
  length (Sum (methods sha3_512.NewLegacyKeccak512) []
            (Write (methods sha3_512.NewLegacyKeccak512) b
               (state sha3_512.NewLegacyKeccak512))) = 64%nat.
Proof.
  cbn [methods state sha3_512.NewLegacyKeccak512 Sum Write
    sha3_512.keccak512_methods app].
  unfold sha3_512.squeeze_from, sha3_512.outputLen.
  cbn [sha3.squeezed sha3.absorbed drop Nat.add]. apply sponge_64_length.
Qed.

Example keccak512_empty :
  hex_value (Keccak512 sha3_512.NewLegacyKeccak512 [])
  = 0x0eab42de4c3ceb9235fc91acffe746b29c29a8c366b7c60e4e67c466f36a4304c00fa9caf9d87976ba469bcbe06713b435f091ef2769fb160cdab33d3670680e.
Proof. vm_compute. reflexivity. Qed.

Lemma keccak512_hasher_is_Keccak512_witness :
  exists f st' m',
    makeHasher (Some sha3_512.NewLegacyKeccak512) = Ok f
    /\ f (Slice 0 64 64) (Slice 0 64 64) (sha3.State [1; 2; 3] 17,
                                          replicate 64 0)
       = Ok (st', m')
    /\ view (Slice 0 64 64) m'
       = Keccak512 sha3_512.NewLegacyKeccak512
           (view (Slice 0 64 64) (replicate 64 0))
    /\ length m' = length (replicate 64 0)
    /\ (forall addr, ~ (0 <= addr < 0 + 64)%nat ->
          m' !! addr = replicate 64 0 !! addr).
Proof.
  apply (keccak512_hasher_is_Keccak512 sha3_512.NewLegacyKeccak512
           sha3_512.read (Slice 0 64 64) (Slice 0 64 64)
           (sha3.State [1; 2; 3] 17) (replicate 64 0) eq_refl eq_refl
           (fun st b => eq_refl) sha3_512_Sum_length).
  - simpl; lia.
  - simpl; lia.
Defined.

(** * Further properties of the seed chain *)

Section SeedChainEdges.

Context {St : Type}.

(** The Keccak-256 object, with what the seed chain relies on. *)
Variable K : HashObj St.
Variable read : nat -> St -> list Z * St.
Hypothesis K_Read : Read (methods K) = Some read.
Hypothesis K_Size : Size (methods K) (state K) = Ok 32.
Hypothesis K_digest : forall st b,
  fst (read 32%nat (Write (methods K) b (Reset (methods K) st)))
    = Keccak256 K b.
Hypothesis K_length : forall b, length (Keccak256 K b) = 32%nat.

(** From the first epoch on, the digest is applied as many times as the
    loop bound [int(block / epochLength)] says, and not at all when the
    bound is negative. *)
Lemma seedHash_loop_bound (p : arch) (block epochLength : Z) :
  0 < epochLength -> epochLength <= block ->
  seedHash K p block epochLength
    = Ok (Spec.iterate (Z.to_nat (to_int p (block / epochLength)))
            (Keccak256 K) (replicate 32 0)).
Proof.
  intros HL Hge. unfold seedHash.
  destruct (Z.ltb_spec block epochLength); [lia|].
  rewrite (makeHasher_returns K read 32 K_Read K_Size).
  cbn [mbind outcome_bind].
  destruct (Z.eqb_spec epochLength 0); [lia|].
  destruct (seedHash_loop_run K read K_digest K_length
              (Z.to_nat (to_int p (block / epochLength))) (state K)
              (replicate 32 0) eq_refl) as (st' & ->).
  cbn [mbind outcome_bind]. f_equal.
  apply view_whole, (iterate_length K K_length). reflexivity.
Qed.

Lemma seedHash_by_epoch (p : arch) (block epochLength : Z) :
  0 < epochLength -> 0 <= block ->
  block / epochLength < 2 ^ (int_bits p - 1) ->
  seedHash K p block epochLength
    = Ok (Spec.iterate (Z.to_nat (block / epochLength)) (Keccak256 K)
            (replicate 32 0)).
Proof.
  intros HL Hb Hq.
  destruct (Z_lt_le_dec block epochLength) as [Hlt|Hge].
  - rewrite seedHash_before_first_epoch by exact Hlt.
    rewrite Z.div_small by lia. reflexivity.
  - apply (seedHash_chain K read K_Read K_Size K_digest K_length);
      assumption.
Qed.

(** X21: the loop bound is the quotient converted to [int]: from the
    first epoch on the digest is applied [int(block / epochLength)]
    times, so a quotient from [2^(w-1)] up to [2^w], [w] the width of
    [int], is negative as an [int] and gives the 32 zero bytes. *)
Theorem seedHash_quotient_as_int (p : arch) (block epochLength : Z) :
  is_u64 block -> 0 < epochLength -> epochLength <= block ->
  seedHash K p block epochLength
    = Ok (Spec.iterate (Z.to_nat (to_int p (block / epochLength)))
            (Keccak256 K) (replicate 32 0))
  /\ (2 ^ (int_bits p - 1) <= block / epochLength < 2 ^ int_bits p ->
      seedHash K p block epochLength = Ok (replicate 32 0)).
Proof.
  intros [Hb _] HL Hge. split; [apply seedHash_loop_bound; assumption|].
  intros Hq.
  apply (seedHash_int_negative K read K_Read K_Size); assumption.
Qed.

(** X22: one epoch later, the seed is the digest of the seed: for 64-bit
    [block] and [epochLength] whose sum is a 64-bit value too, with
    [0 < epochLength] and a quotient that fits [int],
    [seedHash(block + epochLength) = Keccak256(seedHash(block))], and the
    seed has 32 bytes. *)
Theorem seedHash_next_epoch (p : arch) (block epochLength : Z) :
  is_u64 block -> is_u64 epochLength -> is_u64 (block + epochLength) ->
  0 < epochLength ->
  (block + epochLength) / epochLength < 2 ^ (int_bits p - 1) ->
  exists seed,
    seedHash K p block epochLength = Ok seed
    /\ length seed = 32%nat
    /\ seedHash K p (block + epochLength) epochLength
       = Ok (Keccak256 K seed).
Proof.
  intros [Hb _] _ _ HL Hq.
  assert (Hdiv : (block + epochLength) / epochLength
                 = block / epochLength + 1).
  { replace (block + epochLength) with (block + 1 * epochLength) by lia.
    apply Z.div_add. lia. }
  assert (Hq0 : 0 <= block / epochLength) by (apply Z.div_pos; lia).
  exists (Spec.iterate (Z.to_nat (block / epochLength)) (Keccak256 K)
            (replicate 32 0)).
  split; [apply seedHash_by_epoch; lia|].
  split; [apply (iterate_length K K_length); reflexivity|].
  rewrite seedHash_by_epoch by lia. rewrite Hdiv.
  replace (Z.to_nat (block / epochLength + 1))
    with (S (Z.to_nat (block / epochLength))) by lia.
  reflexivity.
Qed.

(** X23: the seed depends on the block number only through its epoch:
    two blocks with the same quotient by [epochLength] have the same
    seed. *)
Theorem seedHash_same_epoch (p : arch) (block block' epochLength : Z) :
  0 <= block -> 0 <= block' -> 0 < epochLength ->
  block / epochLength = block' / epochLength ->
  block / epochLength < 2 ^ (int_bits p - 1) ->
  seedHash K p block epochLength = seedHash K p block' epochLength.
Proof.
  intros Hb Hb' HL Heq Hq.
  rewrite !seedHash_by_epoch by (assumption || lia).
  rewrite Heq. reflexivity.
Qed.

End SeedChainEdges.

(** X20: with [epochLength = 0] the call panics for every block number
    and every hash object; when the object has its [Read] method and its
    [Size] returns, the panic is that of the division of the loop
    condition. *)
Theorem seedHash_zero_epoch_panics {St} (K : HashObj St) (p : arch)
    (block : Z) :
  is_u64 block ->
  (exists msg, seedHash K p block 0 = Panic msg)
  /\ (forall read n,
        Read (methods K) = Some read ->
        Size (methods K) (state K) = Ok n ->
        seedHash K p block 0 = Panic "integer divide by zero").
Proof.
  intros [Hb _]. unfold seedHash.
  destruct (Z.ltb_spec block 0); [lia|]. split.
  - destruct (makeHasher (Some K)) as [f|msg]; cbn [mbind outcome_bind];
      eexists; reflexivity.
  - intros read n HRead HSize.
    rewrite (makeHasher_returns K read n HRead HSize). reflexivity.
Qed.

Lemma seedHash_zero_epoch_panics_witness :
  (exists msg, seedHash sha3.NewLegacyKeccak256 Arch64 30000 0 = Panic msg)
  /\ seedHash sha3.NewLegacyKeccak256 Arch64 30000 0
     = Panic "integer divide by zero".
Proof.
  destruct (seedHash_zero_epoch_panics sha3.NewLegacyKeccak256 Arch64 30000)
    as (Hany & Hdiv); [unfold is_u64; lia|].
  split; [exact Hany|]. exact (Hdiv sha3.read 32 eq_refl eq_refl).
Defined.

Lemma seedHash_quotient_as_int_witness :
  seedHash sha3.NewLegacyKeccak256 Arch32 (2 ^ 32 + 1) 1
    = Ok (Spec.iterate (Z.to_nat (to_int Arch32 ((2 ^ 32 + 1) / 1)))
            (Keccak256 sha3.NewLegacyKeccak256) (replicate 32 0))
  /\ seedHash sha3.NewLegacyKeccak256 Arch64 (2 ^ 63) 1
     = Ok (replicate 32 0).
Proof.
  split.
  - apply (seedHash_quotient_as_int sha3.NewLegacyKeccak256 sha3.read
             eq_refl eq_refl sha3_Read_is_Sum sha3_Sum_length
             Arch32 (2 ^ 32 + 1) 1); [unfold is_u64; lia | lia | lia].
  - apply (seedHash_quotient_as_int sha3.NewLegacyKeccak256 sha3.read
             eq_refl eq_refl sha3_Read_is_Sum sha3_Sum_length
             Arch64 (2 ^ 63) 1); [unfold is_u64; lia | lia | lia |].
    vm_compute. split; [discriminate | reflexivity].
Defined.

Lemma seedHash_next_epoch_witness :
  exists seed,
    seedHash sha3.NewLegacyKeccak256 Arch64 45000 30000 = Ok seed
    /\ length seed = 32%nat
    /\ seedHash sha3.NewLegacyKeccak256 Arch64 (45000 + 30000) 30000
       = Ok (Keccak256 sha3.NewLegacyKeccak256 seed).
Proof.
  apply (seedHash_next_epoch sha3.NewLegacyKeccak256 sha3.read
           eq_refl eq_refl sha3_Read_is_Sum sha3_Sum_length
           Arch64 45000 30000);
    [unfold is_u64; lia | unfold is_u64; lia | unfold is_u64; lia | lia
    | reflexivity].
Defined.

Lemma seedHash_same_epoch_witness :
  seedHash sha3.NewLegacyKeccak256 Arch64 30000 30000
    = seedHash sha3.NewLegacyKeccak256 Arch64 59999 30000.
Proof.
  apply (seedHash_same_epoch sha3.NewLegacyKeccak256 sha3.read
           eq_refl eq_refl sha3_Read_is_Sum sha3_Sum_length
           Arch64 30000 59999 30000);
    [lia | lia | lia | reflexivity | reflexivity].
Defined.

Example seedHash_int_wraps_32 :
  seedHash sha3.NewLegacyKeccak256 Arch32 (2 ^ 32 + 1) 1
    = Ok (Keccak256 sha3.NewLegacyKeccak256 (replicate 32 0)).
Proof. vm_compute. reflexivity. Qed.

(** * Further properties of the digest of a word sequence *)






Example uint32Array2Keccak256_empty (host : byte_order) :
  uint32Array2Keccak256 sha3.NewLegacyKeccak256 host []
    = Ok "0xc5d2460186f7233c927e7db2dcc703c0e500b653ca82273b7bfad8045d85a470"%string.
Proof. destruct host; vm_compute; reflexivity. Qed.
